(** * Route planner: stop selection and fuel-cost integration

    A shallow embedding of [routeplanner/utils.py] and
    [routeplanner/services/route_planner.py].

    Numbers.  The Python code computes with [float] (and the [int] literals
    [0], [1], [10] that mix with them).  They are embedded as real numbers
    [R]: every operation is the exact one, no rounding, no overflow, no NaN.
    Comparisons are the decidable ones of [R], wrapped as booleans.

    Errors.  A Python exception ([IndexError], [KeyError], an exception of
    the routing request) is embedded as [None] of [option], or as the left
    injection of a sum carrying the message. *)

From Stdlib Require Import String Ascii Reals Lra Lia Bool Arith ZArith List Machin.
From Stdlib Require Import Sorting.Sorted Sorting.Permutation.
Import ListNotations.
Open Scope R_scope.

(** ** Comparisons of floats, as booleans *)

Module Cmp.

Definition Rltb (x y : R) : bool := if Rlt_dec x y then true else false.
Definition Rgtb (x y : R) : bool := Rltb y x.
Definition Rleb (x y : R) : bool := if Rle_dec x y then true else false.
Definition Rgeb (x y : R) : bool := Rleb y x.
Definition Reqb (x y : R) : bool := if Req_dec_T x y then true else false.

End Cmp.
Import Cmp.

(** ** Geodesic distance ([utils.haversine]) *)

(** A coordinate as the route has it: [(longitude, latitude)], in degrees. *)
Definition Coord : Type := (R * R)%type.

(** [math.radians]. *)
Definition radians (x : R) : R := x * (PI / 180).

(** The radicand [a] of the haversine formula. *)
Definition haversine_a (coord1 coord2 : Coord) : R :=
  let '(lon1, lat1) := coord1 in
  let '(lon2, lat2) := coord2 in
  let lon1 := radians lon1 in
  let lat1 := radians lat1 in
  let lon2 := radians lon2 in
  let lat2 := radians lat2 in
  let dlon := lon2 - lon1 in
  let dlat := lat2 - lat1 in
  (sin (dlat / 2)) ^ 2 + cos lat1 * cos lat2 * (sin (dlon / 2)) ^ 2.

Definition haversine (coord1 coord2 : Coord) : R :=
  let a := haversine_a coord1 coord2 in
  let c := 2 * asin (sqrt a) in
  let miles := 3956 * c in
  miles.

(** ** Route projection *)

(** The [for i in range(1, len(route_coords))] loop: [prev] is
    [route_coords[i-1]], [acc] is [cumulative_distances[-1]]; the values
    appended are returned in order. *)
Fixpoint cumulative_loop (prev : Coord) (rest : list Coord) (acc : R) : list R :=
  match rest with
  | [] => []
  | p :: rest' =>
      let dist_segment := haversine prev p in
      let d := acc + dist_segment in
      d :: cumulative_loop p rest' d
  end.

(** The table before the correction of its last entry. *)
Definition raw_cumulative (route_coords : list Coord) : list R :=
  0 :: match route_coords with
       | [] => []
       | p :: rest => cumulative_loop p rest 0
       end.

(** [l[-1] = v] on a non-empty list. *)
Definition set_last (l : list R) (v : R) : list R := removelast l ++ [v].

Definition nonempty {A} (l : list A) : bool :=
  match l with [] => false | _ => true end.

Definition calculate_cumulative_distances
    (route_coords : list Coord) (total_route_distance_miles : R) : list R :=
  let cumulative_distances := raw_cumulative route_coords in
  if nonempty cumulative_distances
     && Rgtb (Rabs (last cumulative_distances 0 - total_route_distance_miles)) 1
  then set_last cumulative_distances total_route_distance_miles
  else cumulative_distances.

(** [find_route_point_index_by_distance]: the first index [j] of
    [range(start_index, len(cumulative_distances))] with
    [cumulative_distances[j] >= target_distance], else the last index.
    (On an empty table Python returns [-1]; the table of
    [calculate_cumulative_distances] is never empty.) *)
Definition find_route_point_index_by_distance
    (cumulative_distances : list R) (target_distance : R) (start_index : nat) : nat :=
  match find (fun j => Rgeb (nth j cumulative_distances 0) target_distance)
             (seq start_index (length cumulative_distances - start_index)) with
  | Some j => j
  | None => (length cumulative_distances - 1)%nat
  end.

(** ** The station catalog ([models.GasStation]) *)

(** The columns the planner reads, and two that identify the record;
    [address], [city], [state] and [rack_id] are never read by it. *)
Record GasStation : Type := {
  opis_truckstop_id : string;
  truckstop_name : string;
  retail_price : R;
  latitude : option R;
  longitude : option R
}.

(** A location as the stops carry it: [[latitude, longitude]]. *)
Definition Location : Type := (R * R)%type.

(** The dictionaries built by [find_candidate_stations_near_segment]. *)
Record Candidate : Type := {
  location : Location;
  fuel_price_per_gallon : R;
  distance_from_start_straight_line_miles : R;
  station_obj : GasStation
}.

(** The dictionaries built by [find_stops]. *)
Record Stop : Type := {
  stop_location : Location;
  stop_fuel_price_per_gallon : R;
  distance_from_start_miles : R
}.

(** ** Deduplication *)

Definition location_eqb (a b : Location) : bool :=
  Reqb (fst a) (fst b) && Reqb (snd a) (snd b).

(** [location_tuple in seen_locations]; the set is kept as the list of the
    locations added so far. *)
Definition seen (seen_locations : list Location) (l : Location) : bool :=
  existsb (location_eqb l) seen_locations.

Fixpoint dedup_loop (seen_locations : list Location) (stops_list : list Stop) : list Stop :=
  match stops_list with
  | [] => []
  | stop :: rest =>
      let location_tuple := stop_location stop in
      if negb (seen seen_locations location_tuple)
      then stop :: dedup_loop (location_tuple :: seen_locations) rest
      else dedup_loop seen_locations rest
  end.

Definition deduplicate_stops_by_location (stops_list : list Stop) : list Stop :=
  dedup_loop [] stops_list.

(** ** Station candidate finder *)

(** [GasStation.objects.filter(latitude__isnull=False, longitude__isnull=False)] *)
Definition has_coordinates (station : GasStation) : bool :=
  match latitude station, longitude station with
  | Some _, Some _ => true
  | _, _ => false
  end.

(** The inner loop over [k], with its [break]; [None] is the [IndexError]
    of [route_coords[k]]. *)
Fixpoint is_near_route_segment (route_coords : list Coord) (station_coords : Coord)
    (proximity_threshold_miles : R) (ks : list nat) : option bool :=
  match ks with
  | [] => Some false
  | k :: ks' =>
      match nth_error route_coords k with
      | None => None
      | Some route_point_coords =>
          let dist_to_route_point := haversine station_coords route_point_coords in
          if Rltb dist_to_route_point proximity_threshold_miles
          then Some true
          else is_near_route_segment route_coords station_coords
                 proximity_threshold_miles ks'
      end
  end.

(** [range(segment_start_index, segment_end_index + 1)] *)
Definition segment_range (segment_start_index segment_end_index : nat) : list nat :=
  seq segment_start_index (segment_end_index + 1 - segment_start_index).

(** The loop over the stations of the query set. *)
Fixpoint candidates_loop (route_coords : list Coord)
    (segment_start_index segment_end_index : nat)
    (proximity_threshold_miles last_stop_distance_from_start : R)
    (all_gas_stations : list GasStation) : option (list Candidate) :=
  match all_gas_stations with
  | [] => Some []
  | station :: rest =>
      match longitude station, latitude station with
      | Some lon, Some lat =>
          let station_coords := (lon, lat) in
          match is_near_route_segment route_coords station_coords
                  proximity_threshold_miles
                  (segment_range segment_start_index segment_end_index) with
          | None => None
          | Some false =>
              candidates_loop route_coords segment_start_index segment_end_index
                proximity_threshold_miles last_stop_distance_from_start rest
          | Some true =>
              match nth_error route_coords 0 with
              | None => None
              | Some first_point =>
                  let dist_station_from_start_straight_line :=
                    haversine first_point station_coords in
                  if Rgtb dist_station_from_start_straight_line
                          last_stop_distance_from_start
                  then
                    match candidates_loop route_coords segment_start_index
                            segment_end_index proximity_threshold_miles
                            last_stop_distance_from_start rest with
                    | None => None
                    | Some candidate_stations =>
                        Some ({| location := (lat, lon);
                                 fuel_price_per_gallon := retail_price station;
                                 distance_from_start_straight_line_miles :=
                                   dist_station_from_start_straight_line;
                                 station_obj := station |} :: candidate_stations)
                    end
                  else
                    candidates_loop route_coords segment_start_index segment_end_index
                      proximity_threshold_miles last_stop_distance_from_start rest
              end
          end
      | _, _ => None
      end
  end.

(** [catalog] is the content of the [GasStation] table, in the order the
    query returns it. *)
Definition find_candidate_stations_near_segment (catalog : list GasStation)
    (route_coords : list Coord) (cumulative_distances : list R)
    (segment_start_index segment_end_index : nat)
    (proximity_threshold_miles last_stop_distance_from_start : R)
    : option (list Candidate) :=
  let all_gas_stations := filter has_coordinates catalog in
  candidates_loop route_coords segment_start_index segment_end_index
    proximity_threshold_miles last_stop_distance_from_start all_gas_stations.

(** A station is near the segment: closer than the threshold to a route
    point of index in [[segment_start_index, segment_end_index]]. *)
Definition near_segment (route_coords : list Coord)
    (segment_start_index segment_end_index : nat)
    (proximity_threshold_miles : R) (station_coords : Coord) : Prop :=
  exists k route_point_coords,
    (segment_start_index <= k <= segment_end_index)%nat
    /\ nth_error route_coords k = Some route_point_coords
    /\ haversine station_coords route_point_coords < proximity_threshold_miles.

(** A station is eligible: both coordinates present, near the segment, and
    farther from the first route point, in a straight line, than the last
    stop distance. *)
Definition eligible (route_coords : list Coord)
    (segment_start_index segment_end_index : nat)
    (threshold last_stop_distance : R) (station : GasStation) : Prop :=
  exists lon lat first_point,
    longitude station = Some lon /\ latitude station = Some lat
    /\ nth_error route_coords 0 = Some first_point
    /\ near_segment route_coords segment_start_index segment_end_index
         threshold (lon, lat)
    /\ haversine first_point (lon, lat) > last_stop_distance.

(** A station is returned: it is the [station_obj] of a candidate. *)
Definition returned (candidate_stations : list Candidate) (station : GasStation) : Prop :=
  exists c, In c candidate_stations /\ station_obj c = station.

(** ** Cheapest candidate *)

(** [min(candidate_stations, key=...)]: the running minimum is replaced only
    by a strictly smaller key. *)
Definition min_by_price (best : Candidate) (rest : list Candidate) : Candidate :=
  fold_left (fun best x =>
               if Rltb (fuel_price_per_gallon x) (fuel_price_per_gallon best)
               then x else best)
            rest best.

Definition select_cheapest_stop (candidate_stations : list Candidate) : option Candidate :=
  match candidate_stations with
  | [] => None
  | c :: rest => Some (min_by_price c rest)
  end.

(** The candidates of the test [test_select_cheapest_stop_basic]: only the
    price matters. *)
Definition priced (price : R) : Candidate :=
  {| location := (0, 0);
     fuel_price_per_gallon := price;
     distance_from_start_straight_line_miles := 0;
     station_obj := {| opis_truckstop_id := "0"; truckstop_name := "candidate";
                       retail_price := price;
                       latitude := None; longitude := None |} |}.

(** ** Stop selector ([utils.find_stops]) *)

(** One invocation of the candidate finder, as [find_stops] makes it: the
    window [[call_start, call_end]] and the last-stop distance passed. *)
Record FinderCall : Type := {
  call_start : nat;
  call_end : nat;
  call_last_stop_distance : R
}.

(** The variables the [while] loop updates; [finder_calls] is the log of
    the invocations of the candidate finder, which the Python code does not
    keep (the tests read it from a mock). *)
Record LoopState : Type := {
  optimal_stops : list Stop;
  last_stop_distance_from_start : R;
  finder_calls : list FinderCall
}.

Definition proximity_threshold_miles : R := 10.

(** The condition of the [if] that guards the search, at index [i] with
    the given last-stop distance. *)
Definition search_triggered (cumulative_distances : list R)
    (total_route_distance_miles max_range_miles : R)
    (i : nat) (last_stop : R) : option bool :=
  match nth_error cumulative_distances i with
  | None => None
  | Some current_distance_from_start =>
      let distance_since_last_stop := current_distance_from_start - last_stop in
      let current_range := max_range_miles - distance_since_last_stop in
      let remaining_distance_total :=
        total_route_distance_miles - current_distance_from_start in
      let target_distance_for_next_stop := last_stop + max_range_miles in
      let next_stop_target_index :=
        find_route_point_index_by_distance cumulative_distances
          target_distance_for_next_stop i in
      match nth_error cumulative_distances next_stop_target_index with
      | None => None
      | Some target_point_distance =>
          let distance_to_next_stop_target_point :=
            target_point_distance - current_distance_from_start in
          Some (Rgtb remaining_distance_total current_range
                && Rgtb distance_to_next_stop_target_point current_range)
      end
  end.

(** The two inequalities of the guard, with the target point located by
    [find_route_point_index_by_distance]. *)
Definition trigger_condition (cumulative_distances : list R)
    (total_route_distance_miles max_range_miles : R)
    (i : nat) (last_stop : R) : Prop :=
  exists current_distance target_point_distance,
    nth_error cumulative_distances i = Some current_distance
    /\ nth_error cumulative_distances
         (find_route_point_index_by_distance cumulative_distances
            (last_stop + max_range_miles) i)
       = Some target_point_distance
    /\ total_route_distance_miles - current_distance
       > max_range_miles - (current_distance - last_stop)
    /\ target_point_distance - current_distance
       > max_range_miles - (current_distance - last_stop).

(** The next-stop-target point, as the specification words it: [j] is the
    first index from [i] on whose cumulative distance is at or after
    [target]. *)
Definition next_stop_target (cumulative_distances : list R) (target : R)
    (i j : nat) : Prop :=
  (i <= j)%nat
  /\ (exists d, nth_error cumulative_distances j = Some d /\ d >= target)
  /\ forall k d, (i <= k < j)%nat -> nth_error cumulative_distances k = Some d ->
                 d < target.

(** The trigger condition, as the specification words it: at index [i],
    (a) the remaining trip distance [total - cumulative[i]] strictly exceeds
    the remaining range [max_range - (cumulative[i] - last_stop)], and
    (b) so does the distance from [cumulative[i]] to the next-stop-target
    point, the route point at or after [last_stop + max_range]. *)
Definition search_condition (cumulative_distances : list R)
    (total_route_distance_miles max_range_miles : R)
    (i : nat) (last_stop : R) : Prop :=
  exists current_distance j target_point_distance,
    nth_error cumulative_distances i = Some current_distance
    /\ next_stop_target cumulative_distances (last_stop + max_range_miles) i j
    /\ nth_error cumulative_distances j = Some target_point_distance
    /\ total_route_distance_miles - current_distance
       > max_range_miles - (current_distance - last_stop)
    /\ target_point_distance - current_distance
       > max_range_miles - (current_distance - last_stop).

(** Every logged call was made at an index where the trigger condition
    held for the last-stop distance then in effect. *)
Definition calls_triggered (cumulative_distances : list R)
    (total max_range : R) (calls : list FinderCall) : Prop :=
  Forall (fun call =>
            trigger_condition cumulative_distances total max_range
              (call_start call) (call_last_stop_distance call))
         calls.

(** The body of the [while] loop at index [i]. *)
Definition find_stops_body (catalog : list GasStation) (route_coords : list Coord)
    (cumulative_distances : list R) (total_route_distance_miles max_range_miles : R)
    (st : LoopState) (i : nat) : option LoopState :=
  match nth_error cumulative_distances i with
  | None => None
  | Some current_distance_from_start =>
      let last_stop := last_stop_distance_from_start st in
      let distance_since_last_stop := current_distance_from_start - last_stop in
      let current_range := max_range_miles - distance_since_last_stop in
      match search_triggered cumulative_distances total_route_distance_miles
              max_range_miles i last_stop with
      | None => None
      | Some false => Some st
      | Some true =>
          let look_ahead_distance := current_range in
          let look_ahead_index :=
            find_route_point_index_by_distance cumulative_distances
              (current_distance_from_start + look_ahead_distance) i in
          let calls :=
            finder_calls st ++
            [{| call_start := i; call_end := look_ahead_index;
                call_last_stop_distance := last_stop |}] in
          match find_candidate_stations_near_segment catalog route_coords
                  cumulative_distances i look_ahead_index
                  proximity_threshold_miles last_stop with
          | None => None
          | Some candidate_stations =>
              match select_cheapest_stop candidate_stations with
              | Some cheapest_stop =>
                  Some {| optimal_stops :=
                            optimal_stops st ++
                            [{| stop_location := location cheapest_stop;
                                stop_fuel_price_per_gallon :=
                                  fuel_price_per_gallon cheapest_stop;
                                distance_from_start_miles :=
                                  current_distance_from_start |}];
                          last_stop_distance_from_start := current_distance_from_start;
                          finder_calls := calls |}
              | None =>
                  Some {| optimal_stops := optimal_stops st;
                          last_stop_distance_from_start := last_stop;
                          finder_calls := calls |}
              end
          end
      end
  end.

(** [while i < len(route_coords): ...; i += 1], over the indices still to
    visit. *)
Fixpoint find_stops_loop (catalog : list GasStation) (route_coords : list Coord)
    (cumulative_distances : list R) (total_route_distance_miles max_range_miles : R)
    (indices : list nat) (st : LoopState) : option LoopState :=
  match indices with
  | [] => Some st
  | i :: indices' =>
      match find_stops_body catalog route_coords cumulative_distances
              total_route_distance_miles max_range_miles st i with
      | None => None
      | Some st' =>
          find_stops_loop catalog route_coords cumulative_distances
            total_route_distance_miles max_range_miles indices' st'
      end
  end.

Definition initial_state : LoopState :=
  {| optimal_stops := []; last_stop_distance_from_start := 0; finder_calls := [] |}.

(** The state when the loop of [find_stops] ends. *)
Definition find_stops_run (catalog : list GasStation) (route_coords : list Coord)
    (total_route_distance_miles max_range_miles : R) : option LoopState :=
  let cumulative_distances :=
    calculate_cumulative_distances route_coords total_route_distance_miles in
  find_stops_loop catalog route_coords cumulative_distances
    total_route_distance_miles max_range_miles
    (seq 0 (length route_coords)) initial_state.

Definition find_stops (catalog : list GasStation) (route_coords : list Coord)
    (total_route_distance_miles max_range_miles : R) : option (list Stop) :=
  match find_stops_run catalog route_coords total_route_distance_miles
          max_range_miles with
  | None => None
  | Some st => Some (deduplicate_stops_by_location (optimal_stops st))
  end.

(** ** Order of a list of distances *)

Definition non_decreasing (l : list R) : Prop := StronglySorted Rle l.

(** ** Sorting ([list.sort], stable) *)

Section Sort.
Variable A : Type.
Variable key : A -> R.

Fixpoint insert_by (x : A) (l : list A) : list A :=
  match l with
  | [] => [x]
  | y :: l' => if Rleb (key x) (key y) then x :: y :: l' else y :: insert_by x l'
  end.

Definition sort_by (l : list A) : list A := fold_right insert_by [] l.
End Sort.

Arguments insert_by {A} key x l.
Arguments sort_by {A} key l.

(** ** The planner ([services.route_planner.RoutePlanner]) *)

Module RoutePlanner.

Definition FUEL_EFFICIENCY : R := 10.
Definition MAX_RANGE : R := 1.
Definition DEFAULT_PRICE_PER_GALLON : R := 3.

(** *** Cost integrator *)

(** [dist < min_dist_to_waypoint], where [None] is [float('inf')]. *)
Definition below (dist : R) (min_dist_to_waypoint : option R) : bool :=
  match min_dist_to_waypoint with
  | None => true
  | Some m => Rltb dist m
  end.

(** The [for i, route_point in enumerate(route_coords)] loop: the index of
    the first route point at the least distance of [stop_coords]. *)
Definition closest_route_point_index (route_coords : list Coord) (stop_coords : Coord) : nat :=
  fst (fold_left
         (fun (acc : nat * option R) (ip : nat * Coord) =>
            let '(closest, min_dist_to_waypoint) := acc in
            let '(i, route_point) := ip in
            let dist := haversine stop_coords route_point in
            if below dist min_dist_to_waypoint then (i, Some dist)
            else (closest, min_dist_to_waypoint))
         (combine (seq 0 (length route_coords)) route_coords)
         (0%nat, None)).

(** The distances appended for the stops; [None] is an [IndexError]. *)
Fixpoint stop_waypoints (route_coords : list Coord) (cumulative_distances : list R)
    (optimal_stops : list Stop) : option (list R) :=
  match optimal_stops with
  | [] => Some []
  | stop :: rest =>
      let stop_coords := (snd (stop_location stop), fst (stop_location stop)) in
      match nth_error cumulative_distances
              (closest_route_point_index route_coords stop_coords) with
      | None => None
      | Some d =>
          match stop_waypoints route_coords cumulative_distances rest with
          | None => None
          | Some ds => Some (d :: ds)
          end
      end
  end.

(** [optimal_stops[-1]]; [None] is the [IndexError] on an empty list. *)
Definition last_stop (optimal_stops : list Stop) : option Stop :=
  match optimal_stops with
  | [] => None
  | s :: rest => Some (last rest s)
  end.

(** The price chosen for the segment of index [i]. *)
Definition current_fuel_price_per_gallon (optimal_stops : list Stop) (i : nat) : option R :=
  if Nat.eqb i 0 then Some DEFAULT_PRICE_PER_GALLON
  else if Nat.ltb (i - 1) (length optimal_stops)
       then option_map stop_fuel_price_per_gallon (nth_error optimal_stops (i - 1))
       else option_map stop_fuel_price_per_gallon (last_stop optimal_stops).

(** The [for i in range(len(waypoint_distances_along_route) - 1)] loop. *)
Fixpoint cost_loop (waypoint_distances_along_route : list R) (optimal_stops : list Stop)
    (indices : list nat) (total_cost : R) : option R :=
  match indices with
  | [] => Some total_cost
  | i :: indices' =>
      match nth_error waypoint_distances_along_route i,
            nth_error waypoint_distances_along_route (i + 1),
            current_fuel_price_per_gallon optimal_stops i with
      | Some segment_start_distance, Some segment_end_distance, Some price =>
          let segment_distance := segment_end_distance - segment_start_distance in
          let fuel_needed_segment := segment_distance / FUEL_EFFICIENCY in
          cost_loop waypoint_distances_along_route optimal_stops indices'
            (total_cost + fuel_needed_segment * price)
      | _, _, _ => None
      end
  end.

(** The sorted list of waypoint distances. *)
Definition waypoint_distances (route_coords : list Coord)
    (total_route_distance_miles : R) (optimal_stops : list Stop) : option (list R) :=
  let cumulative_distances :=
    calculate_cumulative_distances route_coords total_route_distance_miles in
  match stop_waypoints route_coords cumulative_distances optimal_stops with
  | None => None
  | Some ds => Some (sort_by (fun d => d) ((0 :: ds) ++ [total_route_distance_miles]))
  end.

Definition _calculate_total_fuel_cost_on_route (route_coords : list Coord)
    (total_route_distance_miles : R) (optimal_stops : list Stop) : option R :=
  match waypoint_distances route_coords total_route_distance_miles optimal_stops with
  | None => None
  | Some waypoint_distances_along_route =>
      cost_loop waypoint_distances_along_route optimal_stops
        (seq 0 (length waypoint_distances_along_route - 1)) 0
  end.

(** The waypoint distance of a stop, as the specification words it: the
    cumulative distance of the route point closest to the stop. *)
Definition projected_distance (route_coords : list Coord)
    (cumulative_distances : list R) (stop : Stop) : R :=
  nth (closest_route_point_index route_coords
         (snd (stop_location stop), fst (stop_location stop)))
      cumulative_distances 0.

(** The cost as the specification words it: the sum, over the consecutive
    pairs of the sorted waypoint distances, of [(segmentDistance / 10) *
    price], where the price of segment [k] is 3.00 USD for [k = 0], the
    price of stop [k - 1] when there is one, and the price of the last stop
    otherwise. *)
Definition segment_price (optimal_stops : list Stop) (k : nat) : R :=
  if Nat.eqb k 0 then 3
  else
    let prices := map stop_fuel_price_per_gallon optimal_stops in
    nth (k - 1) prices (last prices 0).

Definition segment_cost (waypoints : list R) (optimal_stops : list Stop) (k : nat) : R :=
  (nth (k + 1) waypoints 0 - nth k waypoints 0) / 10 * segment_price optimal_stops k.


(** *** The routing collaborator *)

(** An exception raised inside the [try] of [_get_initial_route], with its
    [str()]: one of [requests.exceptions.RequestException], or any other. *)
Inductive exn : Type :=
  | RequestException (e : string)
  | OtherException (e : string).

(** The JSON payload, as far as the code reads it; [None] is a missing key. *)
Record Summary : Type := { distance : option R; duration : option R }.
Record Properties : Type := { summary : option Summary }.
Record Geometry : Type := { coordinates : option (list Coord) }.
Record Feature : Type := { geometry : option Geometry; properties : option Properties }.
Record RouteData : Type := { features : option (list Feature) }.

(** What [requests.get] returned: [raise_for_status] is the message of the
    [HTTPError] it raises, if any; [json] is the result of [resp.json()]. *)
Record Response : Type := {
  raise_for_status : option string;
  json : exn + RouteData
}.

Definition key_error (k : string) : exn := OtherException ("'" ++ k ++ "'")%string.

(** The body of the [try] of [_get_initial_route]. *)
Definition read_route (got : exn + Response) : exn + (list Coord * R * R) :=
  match got with
  | inl e => inl e
  | inr resp =>
      match raise_for_status resp with
      | Some e => inl (RequestException e)
      | None =>
          match json resp with
          | inl e => inl e
          | inr route_data =>
              match features route_data with
              | None | Some [] =>
                  inl (OtherException
                         "No route features found in initial route response.")
              | Some (feature :: _) =>
                  match geometry feature with
                  | None => inl (key_error "geometry")
                  | Some g =>
                      match coordinates g with
                      | None => inl (key_error "coordinates")
                      | Some coords =>
                          match properties feature with
                          | None => inl (key_error "properties")
                          | Some pr =>
                              match summary pr with
                              | None => inl (key_error "summary")
                              | Some sm =>
                                  match distance sm with
                                  | None => inl (key_error "distance")
                                  | Some distance_m =>
                                      match duration sm with
                                      | None => inl (key_error "duration")
                                      | Some duration_s =>
                                          inr (coords, distance_m, duration_s)
                                      end
                                  end
                              end
                          end
                      end
                  end
              end
          end
      end
  end.

(** [_get_initial_route]: [inl] is the message of the [Exception] raised. *)
Definition _get_initial_route (got : exn + Response) : string + (list Coord * R * R) :=
  match read_route got with
  | inl (RequestException e) =>
      inl ("Failed to get initial route from OpenRouteService: " ++ e)%string
  | inl (OtherException e) =>
      inl ("Error processing OpenRouteService initial route response: " ++ e)%string
  | inr r => inr r
  end.

(** A response with status 200 whose body parses to the given features. *)
Definition ok_response (fs : option (list Feature)) : exn + Response :=
  inr {| raise_for_status := None; json := inr {| features := fs |} |}.

(** *** The result of [plan] *)

Inductive value : Type :=
  | VFloat (x : R)
  | VStr (s : string)
  | VStops (stops : list Stop)
  | VCoords (coords : list (R * R)).

(** A Python [dict] with string keys, in insertion order. *)
Definition dict : Type := list (string * value).


(** [round(x, 2)]: to the nearest hundredth, ties to even. *)
Definition round_half_even (x : R) : Z :=
  let n := Int_part x in
  let f := frac_part x in
  if Rltb f (1 / 2) then n
  else if Rgtb f (1 / 2) then (n + 1)%Z
  else if Z.even n then n else (n + 1)%Z.

Definition round2 (x : R) : R := IZR (round_half_even (x * 100)) / 100.

(** The error result of [plan]. *)
Definition error_result (e : string) : dict :=
  [("error"%string, VStr ("Could not plan route: " ++ e)%string)].

(** [plan]: [request] is what [requests.get] answers for the given start and
    end; [None] is an exception that [plan] lets through. *)
Definition plan (catalog : list GasStation) (request : Coord -> Coord -> exn + Response)
    (start_coords end_coords : Coord) : option dict :=
  match _get_initial_route (request start_coords end_coords) with
  | inl e => Some (error_result e)
  | inr (initial_route_coords, initial_distance_m, initial_duration_s) =>
      let initial_distance_miles := initial_distance_m / (160934 / 100) in
      match find_stops catalog initial_route_coords initial_distance_miles MAX_RANGE with
      | None => None
      | Some stops =>
          let optimal_stops := sort_by distance_from_start_miles stops in
          match _calculate_total_fuel_cost_on_route initial_route_coords
                  initial_distance_miles optimal_stops with
          | None => None
          | Some total_fuel_cost =>
              let initial_route_coords_latlon :=
                map (fun coord : Coord => (snd coord, fst coord)) initial_route_coords in
              Some [("total_distance_miles"%string, VFloat (round2 initial_distance_miles));
                    ("total_duration_seconds"%string, VFloat initial_duration_s);
                    ("total_fuel_cost_usd"%string, VFloat (round2 total_fuel_cost));
                    ("fuel_stops"%string, VStops optimal_stops);
                    ("route_geometry"%string, VCoords initial_route_coords_latlon)]
          end
      end
  end.

End RoutePlanner.

(** ** Example data

    A route along the equator, where the great-circle distance of two
    points is [3956 * pi / 180] miles (about 69) per degree of longitude:
    four points, the second one repeated, and three stations. *)

Module Example.

Definition station (name : string) (lon lat price : R) : GasStation :=
  {| opis_truckstop_id := name; truckstop_name := name; retail_price := price;
     latitude := Some lat; longitude := Some lon |}.

Definition station_a : GasStation := station "A" (-1 / 10) 0 2.
Definition station_b : GasStation := station "B" (1 / 20) 0 3.
Definition station_c : GasStation := station "C" 1 0 4.

Definition catalog : list GasStation := [station_a; station_b; station_c].

Definition route : list Coord := [(0, 0); (1 / 10, 0); (1 / 10, 0); (1, 0)].

(** Miles per degree of longitude along the equator. *)
Definition mile_per_degree : R := 3956 * (PI / 180).

(** The state in which the loop of the stop selector ends on this route,
    with a declared total of 100 miles and a range of 1 mile. *)
Definition final_state : LoopState :=
  {| optimal_stops :=
       [{| stop_location := (0, -1 / 10); stop_fuel_price_per_gallon := 2;
           distance_from_start_miles := 0 |};
        {| stop_location := (0, 1 / 20); stop_fuel_price_per_gallon := 3;
           distance_from_start_miles := mile_per_degree / 10 |};
        {| stop_location := (0, 1); stop_fuel_price_per_gallon := 4;
           distance_from_start_miles := mile_per_degree / 10 |};
        {| stop_location := (0, 1); stop_fuel_price_per_gallon := 4;
           distance_from_start_miles := 100 |}];
     last_stop_distance_from_start := 100;
     finder_calls :=
       [{| call_start := 0; call_end := 1; call_last_stop_distance := 0 |};
        {| call_start := 1; call_end := 1; call_last_stop_distance := 0 |};
        {| call_start := 2; call_end := 3;
           call_last_stop_distance := mile_per_degree / 10 |};
        {| call_start := 3; call_end := 3;
           call_last_stop_distance := mile_per_degree / 10 |}] |}.

(** The answer of the routing service for this route: 160934 metres (100
    miles), one hour. *)
Definition request (_ _ : Coord) : RoutePlanner.exn + RoutePlanner.Response :=
  RoutePlanner.ok_response
    (Some [{| RoutePlanner.geometry :=
                Some {| RoutePlanner.coordinates := Some route |};
              RoutePlanner.properties :=
                Some {| RoutePlanner.summary :=
                          Some {| RoutePlanner.distance := Some 160934;
                                  RoutePlanner.duration := Some 3600 |} |} |}]).

End Example.

(** ** Order-preserving selections *)

(** [subsequence l1 l2]: [l1] is [l2] with some elements left out. *)
Inductive subsequence {A : Type} : list A -> list A -> Prop :=
  | subsequence_nil : subsequence [] []
  | subsequence_keep (x : A) (l1 l2 : list A) :
      subsequence l1 l2 -> subsequence (x :: l1) (x :: l2)
  | subsequence_skip (x : A) (l1 l2 : list A) :
      subsequence l1 l2 -> subsequence l1 (x :: l2).

(** ** The candidate finder as a filter *)

(** [near_segment], decided: some route point of the window is closer than
    the threshold. *)
Definition near_segmentb (route_coords : list Coord)
    (segment_start_index segment_end_index : nat)
    (proximity_threshold_miles : R) (station_coords : Coord) : bool :=
  existsb (fun k => match nth_error route_coords k with
                    | Some route_point_coords =>
                        Rltb (haversine station_coords route_point_coords)
                             proximity_threshold_miles
                    | None => false
                    end)
          (segment_range segment_start_index segment_end_index).

(** [eligible], decided. *)
Definition eligibleb (route_coords : list Coord)
    (segment_start_index segment_end_index : nat)
    (threshold last_stop_distance : R) (station : GasStation) : bool :=
  match longitude station, latitude station, nth_error route_coords 0 with
  | Some lon, Some lat, Some first_point =>
      near_segmentb route_coords segment_start_index segment_end_index
        threshold (lon, lat)
      && Rgtb (haversine first_point (lon, lat)) last_stop_distance
  | _, _, _ => false
  end.

(** What a candidate record carries of its station. *)
Definition candidate_of_station (route_coords : list Coord) (c : Candidate) : Prop :=
  exists lon lat first_point,
    longitude (station_obj c) = Some lon
    /\ latitude (station_obj c) = Some lat
    /\ nth_error route_coords 0 = Some first_point
    /\ location c = (lat, lon)
    /\ fuel_price_per_gallon c = retail_price (station_obj c)
    /\ distance_from_start_straight_line_miles c = haversine first_point (lon, lat).

(** A stop taken from the catalog: the location and the price of a station
    that has both coordinates. *)
Definition stop_from_catalog (catalog : list GasStation) (s : Stop) : Prop :=
  exists station lat lon,
    In station catalog
    /\ latitude station = Some lat
    /\ longitude station = Some lon
    /\ stop_location s = (lat, lon)
    /\ stop_fuel_price_per_gallon s = retail_price station.

(** ** What the stop selector keeps true *)

(** A stop recorded at a route index below [bound]: its distance is the
    cumulative distance of that index. *)
Definition stop_at_route_index (cumulative_distances : list R) (bound : nat)
    (s : Stop) : Prop :=
  exists k, (k < bound)%nat
            /\ nth_error cumulative_distances k = Some (distance_from_start_miles s).

(** A window of the candidate finder that lies within a route of [n]
    points. *)
Definition window_in_route (n : nat) (c : FinderCall) : Prop :=
  (call_start c <= call_end c < n)%nat.

(** The state of the loop before index [i] is visited. *)
Definition selection_invariant (catalog : list GasStation)
    (cumulative_distances : list R) (n i : nat) (st : LoopState) : Prop :=
  Forall (fun s => stop_from_catalog catalog s
                   /\ stop_at_route_index cumulative_distances i s)
         (optimal_stops st)
  /\ Forall (fun c => (call_start c < i)%nat /\ window_in_route n c) (finder_calls st)
  /\ (length (optimal_stops st) <= length (finder_calls st) <= i)%nat
  /\ (non_decreasing cumulative_distances ->
      non_decreasing (map distance_from_start_miles (optimal_stops st))).

(** ** The request serializer and the view *)

Module Serializers.

(** A Python [float]: a number, an infinity or a NaN. *)
Inductive float_value : Type :=
  | Real (x : R)
  | Infinity (negative : bool)
  | NaN.

(** [value.split(sep)] for a one-character separator. *)
Fixpoint split (sep : ascii) (value : string) : list string :=
  match value with
  | EmptyString => [EmptyString]
  | String c rest =>
      if Ascii.eqb c sep then EmptyString :: split sep rest
      else match split sep rest with
           | part :: parts => String c part :: parts
           | [] => [String c EmptyString]
           end
  end.

(** [sep.join(parts)] for a one-character separator. *)
Fixpoint join (sep : ascii) (parts : list string) : string :=
  match parts with
  | [] => EmptyString
  | [part] => part
  | part :: rest => (part ++ String sep (join sep rest))%string
  end.

(** The number of occurrences of a character. *)
Fixpoint count_char (c : ascii) (value : string) : nat :=
  match value with
  | EmptyString => 0
  | String c' rest => (if Ascii.eqb c' c then 1 else 0) + count_char c rest
  end.

(** [lo <= v <= hi] together with the number [v] is then: an infinity or a
    NaN fails the comparison. *)
Definition within (lo hi : R) (v : float_value) : option R :=
  match v with
  | Real x => if Rleb lo x && Rleb x hi then Some x else None
  | Infinity _ | NaN => None
  end.

Definition invalid_format (field_name : string) : string :=
  ("Invalid format for " ++ field_name ++ ". Expected 'longitude,latitude'.")%string.

Definition invalid_longitude (field_name : string) : string :=
  ("Invalid longitude value for " ++ field_name ++ ".")%string.

Definition invalid_latitude (field_name : string) : string :=
  ("Invalid latitude value for " ++ field_name ++ ".")%string.

Section Validation.

(** [float(s)]: [None] is the [ValueError] of a string that is no float. *)
Variable float : string -> option float_value.

(** [str(e)] of the [ValidationError] made from a message. *)
Variable str_of_validation_error : string -> string.

(** The [ValidationError] of a range check, caught by [except Exception] and
    raised again. *)
Definition error_validating (field_name message : string) : string :=
  ("Error validating " ++ field_name ++ ": "
   ++ str_of_validation_error message)%string.

(** [_validate_coordinate]: [inl] is the message of the [ValidationError]
    raised, [inr] the list [[latitude, longitude]] returned. *)
Definition _validate_coordinate (value field_name : string) : string + Coord :=
  match split "," value with
  | [lon_str; lat_str] =>
      match float lon_str with
      | None => inl (invalid_format field_name)
      | Some longitude =>
          match float lat_str with
          | None => inl (invalid_format field_name)
          | Some latitude =>
              match within (-180) 180 longitude with
              | None =>
                  inl (error_validating field_name (invalid_longitude field_name))
              | Some lon =>
                  match within (-90) 90 latitude with
                  | None =>
                      inl (error_validating field_name (invalid_latitude field_name))
                  | Some lat => inr (lat, lon)
                  end
              end
          end
      end
  | _ => inl (invalid_format field_name)
  end.

Definition validate_start (value : string) : string + Coord :=
  _validate_coordinate value "start".

Definition validate_end (value : string) : string + Coord :=
  _validate_coordinate value "end".

(** The serializer on the two values that passed their [CharField]:
    [inl] is [serializer.errors], the message of each field that failed, and
    [inr] is [serializer.validated_data], the start and the end. *)
Definition is_valid (start end_ : string) : list (string * string) + (Coord * Coord) :=
  match validate_start start, validate_end end_ with
  | inr start_coords, inr end_coords => inr (start_coords, end_coords)
  | inl e, inr _ => inl [("start"%string, e)]
  | inr _, inl e => inl [("end"%string, e)]
  | inl e1, inl e2 => inl [("start"%string, e1); ("end"%string, e2)]
  end.

End Validation.

End Serializers.

Module Views.

Inductive status : Type :=
  | HTTP_200_OK
  | HTTP_400_BAD_REQUEST
  | HTTP_500_INTERNAL_SERVER_ERROR.

(** The body of a response: the errors of the serializer, the result of
    [plan], or [{'error': str(e)}] for an exception that [plan] let
    through. *)
Inductive body : Type :=
  | Errors (errors : list (string * string))
  | Result (result : RoutePlanner.dict)
  | ServerError.

(** [RouteAPIView.get], on what the serializer made of the query. *)
Definition get (catalog : list GasStation)
    (request : Coord -> Coord -> RoutePlanner.exn + RoutePlanner.Response)
    (serializer : list (string * string) + (Coord * Coord)) : status * body :=
  match serializer with
  | inl errors => (HTTP_400_BAD_REQUEST, Errors errors)
  | inr (start_coords, end_coords) =>
      match RoutePlanner.plan catalog request start_coords end_coords with
      | Some result => (HTTP_200_OK, Result result)
      | None => (HTTP_500_INTERNAL_SERVER_ERROR, ServerError)
      end
  end.

End Views.

Module ExampleQuery.

(** A [float] that reads the numerals 0, 1 and 200 only, and [nan]. *)
Definition float (s : string) : option Serializers.float_value :=
  if String.eqb s "0" then Some (Serializers.Real 0)
  else if String.eqb s "1" then Some (Serializers.Real 1)
  else if String.eqb s "200" then Some (Serializers.Real 200)
  else if String.eqb s "nan" then Some Serializers.NaN
  else None.

Definition str_of_validation_error (message : string) : string :=
  ("[" ++ message ++ "]")%string.

End ExampleQuery.

(** ** The import command *)

Module ImportCommand.

(** What a row of [csv.DictReader] holds under a column name: no such key,
    the key with [None] (a row shorter than the header), or a string. *)
Inductive cell : Type :=
  | Absent
  | NoValue
  | Text (s : string).

Record Row : Type := {
  OPIS_Truckstop_ID : cell;
  Truckstop_Name : cell;
  Address : cell;
  City : cell;
  State : cell;
  Rack_ID : cell;
  Retail_Price : cell
}.

(** The [defaults] of [update_or_create]. *)
Record Defaults : Type := {
  truckstop_name : string;
  address : string;
  city : string;
  state : string;
  rack_id : string;
  retail_price : Serializers.float_value;
  latitude : option Serializers.float_value;
  longitude : option Serializers.float_value
}.

(** What [geocode_address] does when called: it raises (the message), it
    returns [None], or it returns [(latitude, longitude)]. *)
Definition answer : Type :=
  string + option (Serializers.float_value * Serializers.float_value).

(** A string is true when it is not empty. *)
Definition truthy (s : string) : bool :=
  match s with
  | EmptyString => false
  | String _ _ => true
  end.

(** [sep.join(parts)]. *)
Fixpoint join (sep : string) (parts : list string) : string :=
  match parts with
  | [] => EmptyString
  | [part] => part
  | part :: rest => (part ++ sep ++ join sep rest)%string
  end.

(** The loop of [_geocode_address_with_retries]; [service attempt] is what
    [geocode_address] does at that attempt. *)
Fixpoint geocode_loop (service : nat -> answer) (retries : nat) (attempts : list nat)
    : option Serializers.float_value * option Serializers.float_value * bool :=
  match attempts with
  | [] => (None, None, false)
  | attempt :: rest =>
      match service attempt with
      | inr (Some (lat, lon)) => (Some lat, Some lon, true)
      | inr None =>
          if (attempt <? retries - 1)%nat then geocode_loop service retries rest
          else (None, None, false)
      | inl _ => (None, None, false)
      end
  end.

Definition _geocode_address_with_retries (service : string -> nat -> answer)
    (full_address : string)
    : option Serializers.float_value * option Serializers.float_value * bool :=
  let retries := 1%nat in
  geocode_loop (service full_address) retries (seq 0 retries).

(** The row holds a string, or nothing at all, under each column of the
    address. *)
Definition has_address_cells (row : Row) : bool :=
  match Address row, City row, State row with
  | NoValue, _, _ | _, NoValue, _ | _, _, NoValue => false
  | _, _, _ => true
  end.

(** The rows before the first one that lacks a cell of the address. *)
Fixpoint rows_handled (rows : list Row) : nat :=
  match rows with
  | [] => 0
  | row :: rest => if has_address_cells row then S (rows_handled rest) else 0
  end.

Section Command.

(** [s.strip()]. *)
Variable strip : string -> string.

(** [float(s)]: [None] is the [ValueError] of a string that is no float. *)
Variable float : string -> option Serializers.float_value.

(** The table of stations, and [GasStation.objects.update_or_create] on it:
    [None] is an exception. *)
Variable Store : Type.
Variable update_or_create : Store -> string -> Defaults -> option Store.

(** The counters of the command, and the table. *)
Record Import : Type := {
  processed_count : nat;
  geocoded_count : nat;
  failed_count : nat;
  table : Store
}.

(** [row.get(key, '').strip()]: [None] is the [AttributeError] of
    [None.strip()]. *)
Definition get_stripped (c : cell) : option string :=
  match c with
  | Absent => Some (strip EmptyString)
  | NoValue => None
  | Text s => Some (strip s)
  end.

(** [float(row.get('Retail Price', 0.0))]: [None] is the [TypeError] of
    [float(None)] or the [ValueError] of a string that is no float. *)
Definition get_price (c : cell) : option Serializers.float_value :=
  match c with
  | Absent => Some (Serializers.Real 0)
  | NoValue => None
  | Text s => float s
  end.

(** [_construct_full_address]: [None] is the exception it lets through. *)
Definition _construct_full_address (row : Row) : option string :=
  match get_stripped (Address row), get_stripped (City row), get_stripped (State row) with
  | Some a, Some c, Some s =>
      let address_parts := [a; c; s; "USA"%string] in
      Some (join ", " (filter truthy address_parts))
  | _, _, _ => None
  end.

(** The arguments of [update_or_create], evaluated in the order of the
    source; [None] is an exception. *)
Definition record_of (row : Row)
    (lat lon : option Serializers.float_value) : option (string * Defaults) :=
  match get_stripped (OPIS_Truckstop_ID row) with
  | None => None
  | Some id =>
  match get_stripped (Truckstop_Name row) with
  | None => None
  | Some name =>
  match get_stripped (Address row) with
  | None => None
  | Some a =>
  match get_stripped (City row) with
  | None => None
  | Some c =>
  match get_stripped (State row) with
  | None => None
  | Some s =>
  match get_stripped (Rack_ID row) with
  | None => None
  | Some rack =>
  match get_price (Retail_Price row) with
  | None => None
  | Some price =>
      Some (id, {| truckstop_name := name; address := a; city := c; state := s;
                   rack_id := rack; retail_price := price;
                   latitude := lat; longitude := lon |})
  end end end end end end end.

Definition _save_gas_station_record (self : Import) (row : Row)
    (lat lon : option Serializers.float_value) (geocoding_successful : bool) : Import :=
  match
    match record_of row lat lon with
    | Some (id, defaults) => update_or_create (table self) id defaults
    | None => None
    end
  with
  | Some saved =>
      {| processed_count := processed_count self + 1;
         geocoded_count := geocoded_count self;
         failed_count := failed_count self;
         table := saved |}
  | None =>
      {| processed_count := processed_count self;
         geocoded_count := geocoded_count self;
         failed_count := failed_count self + 1;
         table := table self |}
  end.

(** [_process_row]: [None] is the exception it lets through. *)
Definition _process_row (service : string -> nat -> answer) (self : Import) (row : Row)
    : option Import :=
  match _construct_full_address row with
  | None => None
  | Some full_address =>
      let '(lat, lon, geocoding_successful) :=
        if truthy full_address then _geocode_address_with_retries service full_address
        else (None, None, false) in
      Some (_save_gas_station_record self row lat lon geocoding_successful)
  end.

(** The loop of [handle] over the rows of the file: an exception of
    [_process_row] ends it. *)
Fixpoint handle_loop (service : string -> nat -> answer) (self : Import)
    (rows : list Row) : Import :=
  match rows with
  | [] => self
  | row :: rest =>
      match _process_row service self row with
      | Some self' => handle_loop service self' rest
      | None => self
      end
  end.

(** [handle]: the command as it is when the report is written; [None] is a
    file that does not exist. *)
Definition handle (service : string -> nat -> answer) (stations : Store)
    (csv_file : option (list Row)) : Import :=
  let self := {| processed_count := 0; geocoded_count := 0; failed_count := 0;
                 table := stations |} in
  match csv_file with
  | None => self
  | Some rows => handle_loop service self rows
  end.

End Command.

End ImportCommand.

Module ExampleImport.
Import ImportCommand.


Definition short_row : Row :=
  {| OPIS_Truckstop_ID := Text "8"; Truckstop_Name := Text "B"; Address := Text "I-10";
     City := Text "Tomah"; State := NoValue; Rack_ID := NoValue;
     Retail_Price := NoValue |}.

Definition strip (s : string) : string := s.

Definition float (s : string) : option Serializers.float_value :=
  if String.eqb s "3.00" then Some (Serializers.Real 3) else None.

(** A table that keeps the identifiers saved, and a service that finds
    nothing. *)
Definition update_or_create (stations : list string) (id : string) (_ : Defaults)
    : option (list string) :=
  Some (id :: stations).

Definition service (_ : string) (_ : nat) : answer := inr None.

End ExampleImport.


(** * Properties *)

(** ** Comparisons *)

Module CmpFacts.

Lemma Rltb_true x y : x < y -> Rltb x y = true.
Proof. unfold Rltb; destruct (Rlt_dec x y); intuition. Qed.

Lemma Rltb_false x y : y <= x -> Rltb x y = false.
Proof. unfold Rltb; destruct (Rlt_dec x y); auto; lra. Qed.

Lemma Rltb_spec x y : Rltb x y = true <-> x < y.
Proof. unfold Rltb; destruct (Rlt_dec x y); intuition congruence. Qed.

Lemma Rltb_nspec x y : Rltb x y = false <-> y <= x.
Proof. unfold Rltb; destruct (Rlt_dec x y); split; intros; try congruence; lra. Qed.

Lemma Rgtb_true x y : x > y -> Rgtb x y = true.
Proof. intros; unfold Rgtb; apply Rltb_true; lra. Qed.

Lemma Rgtb_false x y : x <= y -> Rgtb x y = false.
Proof. intros; unfold Rgtb; apply Rltb_false; lra. Qed.

Lemma Rgtb_spec x y : Rgtb x y = true <-> x > y.
Proof. unfold Rgtb; rewrite Rltb_spec; lra. Qed.

Lemma Rgtb_nspec x y : Rgtb x y = false <-> x <= y.
Proof. unfold Rgtb; rewrite Rltb_nspec; lra. Qed.

Lemma Rleb_true x y : x <= y -> Rleb x y = true.
Proof. unfold Rleb; destruct (Rle_dec x y); intuition. Qed.

Lemma Rleb_false x y : y < x -> Rleb x y = false.
Proof. unfold Rleb; destruct (Rle_dec x y); auto; lra. Qed.

Lemma Rleb_spec x y : Rleb x y = true <-> x <= y.
Proof. unfold Rleb; destruct (Rle_dec x y); intuition congruence. Qed.

Lemma Rleb_nspec x y : Rleb x y = false <-> y < x.
Proof. unfold Rleb; destruct (Rle_dec x y); split; intros; try congruence; lra. Qed.

Lemma Rgeb_true x y : x >= y -> Rgeb x y = true.
Proof. intros; unfold Rgeb; apply Rleb_true; lra. Qed.

Lemma Rgeb_false x y : x < y -> Rgeb x y = false.
Proof. intros; unfold Rgeb; apply Rleb_false; lra. Qed.

Lemma Rgeb_spec x y : Rgeb x y = true <-> x >= y.
Proof. unfold Rgeb; rewrite Rleb_spec; lra. Qed.

Lemma Rgeb_nspec x y : Rgeb x y = false <-> x < y.
Proof. unfold Rgeb; rewrite Rleb_nspec; lra. Qed.

Lemma Reqb_spec x y : Reqb x y = true <-> x = y.
Proof. unfold Reqb; destruct (Req_dec_T x y); intuition congruence. Qed.

Lemma Reqb_true x y : x = y -> Reqb x y = true.
Proof. apply Reqb_spec. Qed.

Lemma Reqb_refl x : Reqb x x = true.
Proof. now apply Reqb_spec. Qed.

Lemma Reqb_neq x y : x <> y -> Reqb x y = false.
Proof. unfold Reqb; destruct (Req_dec_T x y); intuition. Qed.

End CmpFacts.
Import CmpFacts.

#[global] Arguments Rltb : simpl never.
#[global] Arguments Rgtb : simpl never.
#[global] Arguments Rleb : simpl never.
#[global] Arguments Rgeb : simpl never.
#[global] Arguments Reqb : simpl never.
#[global] Arguments haversine : simpl never.

(** Decide one comparison of the goal by linear arithmetic. *)
Ltac cmp1 :=
  match goal with
  | |- context [Rltb ?a ?b] =>
      first [ rewrite (Rltb_true a b) by lra | rewrite (Rltb_false a b) by lra ]
  | |- context [Rgtb ?a ?b] =>
      first [ rewrite (Rgtb_true a b) by lra | rewrite (Rgtb_false a b) by lra ]
  | |- context [Rleb ?a ?b] =>
      first [ rewrite (Rleb_true a b) by lra | rewrite (Rleb_false a b) by lra ]
  | |- context [Rgeb ?a ?b] =>
      first [ rewrite (Rgeb_true a b) by lra | rewrite (Rgeb_false a b) by lra ]
  | |- context [Reqb ?a ?b] =>
      first [ rewrite (Reqb_true a b) by lra | rewrite (Reqb_neq a b) by lra ]
  end.

(** ** Geodesic distance *)

Lemma asin_nonneg (x : R) : 0 <= x -> 0 <= asin x.
Proof.
  intros Hx. pose proof PI_RGT_0 as Hpi.
  destruct (Rle_dec 1 x) as [H1 | H1].
  - unfold asin. repeat case Rle_dec; intros; lra.
  - destruct (Req_dec x 0) as [-> | Hx0].
    + rewrite asin_0; lra.
    + rewrite asin_atan by lra.
      rewrite <- atan_0. left. apply atan_increasing.
      apply Rdiv_lt_0_compat; [lra |].
      apply sqrt_lt_R0. rewrite Rsqr_pow2. nra.
Qed.

Lemma haversine_nonneg (coord1 coord2 : Coord) : 0 <= haversine coord1 coord2.
Proof.
  unfold haversine. cbv zeta.
  pose proof (asin_nonneg _ (sqrt_pos (haversine_a coord1 coord2))). lra.
Qed.

(** In exact arithmetic the radicand lies in [[0, 1]], so that [sqrt] and
    [asin] are applied within their domains: the embedding of [haversine]
    as a total function loses no error case of the real-number formula.
    (What rounding does to the radicand is outside this embedding.) *)
Lemma haversine_a_bounds (coord1 coord2 : Coord) :
  0 <= haversine_a coord1 coord2 <= 1.
Proof.
  destruct coord1 as [lon1 lat1], coord2 as [lon2 lat2].
  unfold haversine_a. cbv zeta.
  set (m := (radians lat1 + radians lat2) / 2).
  set (p := (radians lat2 - radians lat1) / 2).
  set (s := sin ((radians lon2 - radians lon1) / 2)).
  replace (radians lat1) with (m - p) by (unfold m, p; lra).
  replace (radians lat2) with (m + p) by (unfold m, p; lra).
  rewrite cos_minus, cos_plus.
  pose proof (sin2_cos2 m) as Hm. pose proof (sin2_cos2 p) as Hp.
  pose proof (sin2_cos2 ((radians lon2 - radians lon1) / 2)) as Hs. fold s in Hs.
  unfold Rsqr in *.
  set (cm := cos m) in *. set (sm := sin m) in *.
  set (cp := cos p) in *. set (sp := sin p) in *.
  set (cl := cos ((radians lon2 - radians lon1) / 2)) in *.
  assert (H : sp ^ 2 + (cm * cp + sm * sp) * (cm * cp - sm * sp) * s ^ 2
              = sp * sp * (cl * cl) + cm * cm * (s * s)).
  { replace (cl * cl) with (1 - s * s) by lra.
    assert (E : (cm * cp + sm * sp) * (cm * cp - sm * sp) = cm * cm * (cp * cp) - sm * sm * (sp * sp)) by ring.
    rewrite E. replace (cp * cp) with (1 - sp * sp) by lra.
    replace (sm * sm) with (1 - cm * cm) by lra. ring. }
  rewrite H.
  assert (0 <= sp * sp) by nra. assert (0 <= cl * cl) by nra.
  assert (0 <= cm * cm) by nra. assert (0 <= s * s) by nra.
  assert (0 <= sm * sm) by nra. assert (0 <= cp * cp) by nra.
  split; nra.
Qed.

(** Two points of the equator, at most half a turn apart. *)
Lemma haversine_equator (x y : R) :
  0 <= y - x <= 180 ->
  haversine (x, 0) (y, 0) = 3956 * (PI / 180) * (y - x)
  /\ haversine (y, 0) (x, 0) = 3956 * (PI / 180) * (y - x).
Proof.
  intros Hxy. pose proof PI_RGT_0 as Hpi.
  assert (Hhalf : 0 <= (y - x) * (PI / 360) <= PI / 2) by (split; nra).
  assert (Hs : 0 <= sin ((y - x) * (PI / 360))).
  { apply sin_ge_0; lra. }
  assert (Ha : forall d, d = (y - x) * (PI / 360) \/ d = - ((y - x) * (PI / 360)) ->
               2 * asin (sqrt ((sin ((0 * (PI / 180) - 0 * (PI / 180)) / 2)) ^ 2
                 + cos (0 * (PI / 180)) * cos (0 * (PI / 180)) * (sin d) ^ 2))
               = (PI / 180) * (y - x)).
  { intros d Hd.
    replace ((0 * (PI / 180) - 0 * (PI / 180)) / 2) with 0 by lra.
    replace (0 * (PI / 180)) with 0 by lra.
    rewrite sin_0, cos_0.
    replace (0 ^ 2 + 1 * 1 * sin d ^ 2) with ((sin ((y - x) * (PI / 360))) ^ 2).
    - rewrite sqrt_pow2 by assumption. rewrite asin_sin by lra. lra.
    - destruct Hd as [-> | ->]; [ring | rewrite sin_neg; ring]. }
  unfold haversine, haversine_a, radians. cbv zeta.
  split.
  - rewrite (Ha ((y * (PI / 180) - x * (PI / 180)) / 2)) by (left; lra). ring.
  - rewrite (Ha ((x * (PI / 180) - y * (PI / 180)) / 2)) by (right; lra). ring.
Qed.

(** Rewrite one distance between two points of the equator. *)
Ltac hav1 :=
  match goal with
  | |- context [haversine (?x, 0) (?y, 0)] =>
      first [ rewrite (proj1 (haversine_equator x y ltac:(lra)))
            | rewrite (proj2 (haversine_equator y x ltac:(lra))) ]
  end.

Lemma mile_per_degree_bounds : 65 < Example.mile_per_degree <= 88.
Proof.
  unfold Example.mile_per_degree. pose proof PI2_3_2. pose proof PI_4. lra.
Qed.

(** ** Cumulative distances *)

Lemma cumulative_loop_length prev rest acc :
  length (cumulative_loop prev rest acc) = length rest.
Proof.
  revert prev acc; induction rest as [| p rest IH]; intros; simpl; auto.
Qed.

Lemma cumulative_loop_lower_bound prev rest acc :
  Forall (Rle acc) (cumulative_loop prev rest acc).
Proof.
  revert prev acc; induction rest as [| p rest IH]; intros prev acc; simpl.
  - constructor.
  - pose proof (haversine_nonneg prev p) as Hd.
    constructor; [lra |].
    eapply Forall_impl; [| apply IH]. simpl; intros; lra.
Qed.

Lemma cumulative_loop_non_decreasing prev rest acc :
  non_decreasing (cumulative_loop prev rest acc).
Proof.
  unfold non_decreasing.
  revert prev acc; induction rest as [| p rest IH]; intros prev acc; simpl.
  - constructor.
  - constructor; [apply IH | apply cumulative_loop_lower_bound].
Qed.

Lemma raw_cumulative_non_decreasing route_coords :
  non_decreasing (raw_cumulative route_coords).
Proof.
  unfold non_decreasing, raw_cumulative. destruct route_coords as [| p rest].
  - repeat constructor.
  - constructor.
    + apply cumulative_loop_non_decreasing.
    + apply cumulative_loop_lower_bound.
Qed.

Lemma raw_cumulative_length route_coords :
  length (raw_cumulative route_coords) = Nat.max 1 (length route_coords).
Proof.
  unfold raw_cumulative. destruct route_coords as [| p rest]; simpl; auto.
  now rewrite cumulative_loop_length.
Qed.

Lemma set_last_length (l : list R) v : l <> [] -> length (set_last l v) = length l.
Proof.
  intros Hl. unfold set_last. rewrite length_app. simpl.
  destruct (exists_last Hl) as (l' & a & ->).
  rewrite removelast_last, length_app. simpl. lia.
Qed.

Lemma calculate_cumulative_distances_length route_coords total :
  length (calculate_cumulative_distances route_coords total)
  = Nat.max 1 (length route_coords).
Proof.
  unfold calculate_cumulative_distances. cbv zeta.
  destruct (_ && _).
  - rewrite set_last_length; [apply raw_cumulative_length |].
    unfold raw_cumulative; discriminate.
  - apply raw_cumulative_length.
Qed.

(** The shape of the table: the raw sums, with the last entry replaced when
    the correction applies. *)
Lemma calculate_cumulative_distances_shape route_coords total :
  let raw := raw_cumulative route_coords in
  calculate_cumulative_distances route_coords total
  = removelast raw ++
    [if Rgtb (Rabs (last raw 0 - total)) 1 then total else last raw 0].
Proof.
  intros raw. unfold calculate_cumulative_distances. fold raw.
  assert (Hne : raw <> []) by (unfold raw, raw_cumulative; discriminate).
  clearbody raw.
  replace (nonempty raw) with true by (destruct raw; [congruence | reflexivity]).
  rewrite andb_true_l. destruct (Rgtb _ 1).
  - reflexivity.
  - now apply app_removelast_last.
Qed.

Lemma short_route_table (route_coords : list Coord) (total : R) :
  (length route_coords <= 1)%nat ->
  calculate_cumulative_distances route_coords total
  = (if Rgtb (Rabs total) 1 then [total] else [0]).
Proof.
  intros Hlen.
  assert (Habs : Rabs (0 - total) = Rabs total).
  { replace (0 - total) with (- total) by lra. apply Rabs_Ropp. }
  rewrite calculate_cumulative_distances_shape.
  destruct route_coords as [| p [| q rest]]; simpl in Hlen; try lia;
    simpl; rewrite Habs; destruct (Rgtb _ 1); reflexivity.
Qed.

Lemma short_route_table_400 (route_coords : list Coord) :
  (length route_coords <= 1)%nat ->
  calculate_cumulative_distances route_coords 400 = [400].
Proof.
  intros Hlen. rewrite short_route_table by exact Hlen.
  rewrite Rgtb_true; [reflexivity | rewrite Rabs_pos_eq; lra].
Qed.

(** C4, as amended: on a route of zero or one point the table is [[0]]
    when the declared total is within one mile of zero, and the
    single-element table [[total]] otherwise. *)
Theorem cumulative_distances_short_route (p : Coord) (total : R) :
  calculate_cumulative_distances [] total
    = (if Rgtb (Rabs total) 1 then [total] else [0])
  /\ calculate_cumulative_distances [p] total
    = (if Rgtb (Rabs total) 1 then [total] else [0]).
Proof.
  split; apply short_route_table; simpl; lia.
Qed.

(** C4 fails as stated: with a declared total of 400 miles the table of an
    empty or one-point route is [[400]], not [[0]]. *)
Lemma cumulative_distances_short_route_not_zero :
  calculate_cumulative_distances [] 400 = [400]
  /\ calculate_cumulative_distances [(-74, 40)] 400 = [400]
  /\ calculate_cumulative_distances [(-74, 40)] 400 <> [0].
Proof.
  assert (H0 : calculate_cumulative_distances [] 400 = [400])
    by (apply short_route_table_400; simpl; lia).
  assert (H1 : calculate_cumulative_distances [(-74, 40)] 400 = [400])
    by (apply short_route_table_400; simpl; lia).
  split; [exact H0 | split; [exact H1 |]].
  intros E. pose proof (eq_trans (eq_sym H1) E) as E'. injection E'. lra.
Qed.

Lemma non_decreasing_app_inv (l : list R) (a : R) :
  non_decreasing (l ++ [a]) -> non_decreasing l /\ Forall (fun d => d <= a) l.
Proof.
  unfold non_decreasing. induction l as [| x l IH]; simpl; intros H.
  - split; constructor.
  - inversion H as [| ? ? Hs Hf]; subst.
    destruct (IH Hs) as [Hl Ha]. apply Forall_app in Hf as [Hf1 Hf2].
    split; constructor; auto.
    now inversion Hf2.
Qed.

Lemma non_decreasing_app (l : list R) (a : R) :
  non_decreasing l -> Forall (fun d => d <= a) l -> non_decreasing (l ++ [a]).
Proof.
  unfold non_decreasing. induction l as [| x l IH]; simpl; intros Hs Hf.
  - repeat constructor.
  - inversion Hs; inversion Hf; subst.
    constructor; auto. apply Forall_app; split; auto.
Qed.

Lemma raw_cumulative_split route_coords :
  raw_cumulative route_coords
  = removelast (raw_cumulative route_coords) ++ [last (raw_cumulative route_coords) 0].
Proof. apply app_removelast_last. unfold raw_cumulative; discriminate. Qed.

Lemma raw_cumulative_head route_coords : hd 0 (raw_cumulative route_coords) = 0.
Proof. reflexivity. Qed.

Lemma removelast_raw_head p q rest :
  hd 0 (removelast (raw_cumulative (p :: q :: rest)) ++ [0]) = 0.
Proof. reflexivity. Qed.

(** C5, as amended: the table is the sequence of raw running sums, which is
    non-decreasing and starts at 0, with only its last entry replaced by
    the declared total when the raw sum differs from it by more than one
    mile.  So the last entry is the declared total in that case; the
    entries before the last are non-decreasing; the whole table is
    non-decreasing when the correction does not apply or when no earlier
    entry exceeds the declared total; and the first entry is 0 when the
    route has at least two points or the correction does not apply. *)
Theorem cumulative_distances_invariants (route_coords : list Coord) (total : R) :
  let raw := raw_cumulative route_coords in
  let table := calculate_cumulative_distances route_coords total in
  (non_decreasing raw /\ hd 0 raw = 0)
  /\ removelast table = removelast raw
  /\ non_decreasing (removelast table)
  /\ last table 0 = (if Rgtb (Rabs (last raw 0 - total)) 1 then total else last raw 0)
  /\ (Rabs (last raw 0 - total) > 1 -> last table 0 = total)
  /\ (Rabs (last raw 0 - total) <= 1 -> table = raw)
  /\ (Forall (fun d => d <= total) (removelast raw) -> non_decreasing table)
  /\ ((2 <= length route_coords)%nat -> hd 0 table = 0).
Proof.
  intros raw table.
  pose proof (raw_cumulative_non_decreasing route_coords) as Hraw. fold raw in Hraw.
  pose proof (raw_cumulative_split route_coords) as Hsplit. fold raw in Hsplit.
  pose proof (calculate_cumulative_distances_shape route_coords total) as Hshape.
  cbv zeta in Hshape. fold raw table in Hshape.
  assert (Hpre : non_decreasing (removelast raw) /\
                 Forall (fun d => d <= last raw 0) (removelast raw)).
  { apply non_decreasing_app_inv. now rewrite <- Hsplit. }
  assert (Hrl : removelast table = removelast raw).
  { rewrite Hshape. apply removelast_last. }
  assert (Hlast : last table 0
                  = if Rgtb (Rabs (last raw 0 - total)) 1 then total else last raw 0).
  { rewrite Hshape. apply last_last. }
  repeat split.
  - exact Hraw.
  - exact Hrl.
  - rewrite Hrl. apply Hpre.
  - exact Hlast.
  - intros H. rewrite Hlast. now rewrite Rgtb_true.
  - intros H. rewrite Hshape, Rgtb_false by exact H. now symmetry.
  - intros H. rewrite Hshape. apply non_decreasing_app; [apply Hpre |].
    destruct (Rgtb _ 1); [exact H | apply Hpre].
  - intros H. rewrite Hshape. unfold raw.
    destruct route_coords as [| p [| q rest]]; simpl in H; try lia.
    reflexivity.
Qed.

(** C5 fails as stated: the table of a one-point route with a declared
    total of 400 miles starts at 400; and on three points of the equator one
    degree apart (about 69 miles each) with a declared total of 10 miles the
    table is [[0; d; 10]] with [d > 65], which decreases. *)
Lemma cumulative_distances_not_monotone :
  hd 0 (calculate_cumulative_distances [(-74, 40)] 400) = 400
  /\ (exists d, 65 < d
        /\ calculate_cumulative_distances [(0, 0); (1, 0); (2, 0)] 10 = [0; d; 10])
  /\ ~ non_decreasing (calculate_cumulative_distances [(0, 0); (1, 0); (2, 0)] 10).
Proof.
  pose proof mile_per_degree_bounds as HK. unfold Example.mile_per_degree in HK.
  destruct (haversine_equator 0 1 ltac:(lra)) as [H01 _].
  destruct (haversine_equator 1 2 ltac:(lra)) as [H12 _].
  assert (Htab : calculate_cumulative_distances [(0, 0); (1, 0); (2, 0)] 10
                 = [0; 0 + haversine (0, 0) (1, 0); 10]).
  { rewrite calculate_cumulative_distances_shape. simpl.
    rewrite H01, H12.
    rewrite Rgtb_true; [reflexivity |].
    rewrite Rabs_pos_eq; lra. }
  split; [| split].
  - rewrite short_route_table_400 by (simpl; lia). reflexivity.
  - exists (0 + haversine (0, 0) (1, 0)). split; [rewrite H01; lra | exact Htab].
  - intros Hs. unfold non_decreasing in Hs.
    assert (Hs' : StronglySorted Rle [0; 0 + haversine (0, 0) (1, 0); 10])
      by (rewrite <- Htab; exact Hs).
    inversion Hs' as [| ? ? Hs1 _]; subst.
    inversion Hs1 as [| ? ? _ Hf]; subst.
    inversion Hf as [| ? ? Hle _]; subst.
    rewrite H01 in Hle. lra.
Qed.

(** ** Cheapest candidate *)

Lemma min_by_price_first_minimum (rest pre post : list Candidate) (best : Candidate) :
  Forall (fun x => fuel_price_per_gallon best < fuel_price_per_gallon x) pre ->
  Forall (fun x => fuel_price_per_gallon best <= fuel_price_per_gallon x) post ->
  exists pre' c post',
    pre ++ best :: post ++ rest = pre' ++ c :: post'
    /\ min_by_price best rest = c
    /\ Forall (fun x => fuel_price_per_gallon c < fuel_price_per_gallon x) pre'
    /\ Forall (fun x => fuel_price_per_gallon c <= fuel_price_per_gallon x) post'.
Proof.
  revert pre post best.
  induction rest as [| x rest IH]; intros pre post best Hpre Hpost.
  - exists pre, best, post. rewrite app_nil_r. auto.
  - unfold min_by_price. simpl.
    destruct (Rltb (fuel_price_per_gallon x) (fuel_price_per_gallon best)) eqn:Hlt.
    + apply Rltb_spec in Hlt.
      destruct (IH (pre ++ best :: post) [] x) as (pre' & c & post' & Heq & Hmin & H1 & H2).
      * apply Forall_app; split; [| constructor].
        -- eapply Forall_impl; [| exact Hpre]. simpl; intros; lra.
        -- exact Hlt.
        -- eapply Forall_impl; [| exact Hpost]. simpl; intros; lra.
      * constructor.
      * exists pre', c, post'. repeat split; auto.
        rewrite <- Heq. rewrite <- !app_assoc. reflexivity.
    + apply Rltb_nspec in Hlt.
      destruct (IH pre (post ++ [x]) best) as (pre' & c & post' & Heq & Hmin & H1 & H2).
      * exact Hpre.
      * apply Forall_app; split; [exact Hpost | constructor; [exact Hlt | constructor]].
      * exists pre', c, post'. repeat split; auto.
        rewrite <- Heq. rewrite <- !app_assoc. reflexivity.
Qed.

(** C3: on a non-empty list the selection returns a candidate of the list
    such that every candidate before it has a strictly higher price and
    every candidate after it a price at least as high: the lowest price,
    and the first of the list among those that have it.  On prices
    [[3.50; 3.25; 3.75]] the selected price is 3.25; on the empty list
    nothing is selected, and no error is raised. *)
Theorem select_cheapest_stop_first_minimum :
  (forall (c0 : Candidate) (rest : list Candidate),
     exists pre c post,
       c0 :: rest = pre ++ c :: post
       /\ select_cheapest_stop (c0 :: rest) = Some c
       /\ Forall (fun x => fuel_price_per_gallon c < fuel_price_per_gallon x) pre
       /\ Forall (fun x => fuel_price_per_gallon c <= fuel_price_per_gallon x) post)
  /\ option_map fuel_price_per_gallon
       (select_cheapest_stop (map priced [350 / 100; 325 / 100; 375 / 100]))
     = Some (325 / 100)
  /\ select_cheapest_stop [] = None.
Proof.
  split; [| split].
  - intros c0 rest.
    destruct (min_by_price_first_minimum rest [] [] c0) as (pre & c & post & Heq & Hmin & H1 & H2);
      try constructor.
    exists pre, c, post. simpl in Heq. repeat split; auto.
    simpl. now rewrite Hmin.
  - simpl. unfold min_by_price. simpl.
    rewrite (Rltb_true (325 / 100) (350 / 100)) by lra. simpl.
    rewrite Rltb_false by lra. reflexivity.
  - reflexivity.
Qed.

(** ** Station candidate finder *)

Lemma segment_range_In (segment_start_index segment_end_index k : nat) :
  In k (segment_range segment_start_index segment_end_index)
  <-> (segment_start_index <= k <= segment_end_index)%nat.
Proof. unfold segment_range. rewrite in_seq. lia. Qed.

Lemma is_near_route_segment_spec (route_coords : list Coord) (station_coords : Coord)
    (threshold : R) (ks : list nat) :
  Forall (fun k => (k < length route_coords)%nat) ks ->
  exists b,
    is_near_route_segment route_coords station_coords threshold ks = Some b
    /\ (b = true <->
        exists k p, In k ks /\ nth_error route_coords k = Some p
                    /\ haversine station_coords p < threshold).
Proof.
  induction ks as [| k ks IH]; intros Hks; simpl.
  - exists false. split; [reflexivity |]. split; [discriminate |].
    intros (k & p & [] & _).
  - inversion Hks as [| ? ? Hk Hks']; subst.
    destruct (nth_error route_coords k) as [p |] eqn:Hp.
    2:{ apply nth_error_None in Hp. lia. }
    destruct (Rltb (haversine station_coords p) threshold) eqn:Hlt.
    + exists true. split; [reflexivity |]. split; [| reflexivity].
      intros _. exists k, p. apply Rltb_spec in Hlt. auto.
    + destruct (IH Hks') as (b & Hb & Hiff). exists b. split; [exact Hb |].
      rewrite Hiff. apply Rltb_nspec in Hlt. split.
      * intros (k' & p' & Hin & Hp' & Hd). exists k', p'. auto.
      * intros (k' & p' & [-> | Hin] & Hp' & Hd).
        -- rewrite Hp in Hp'. injection Hp' as <-. lra.
        -- exists k', p'. auto.
Qed.

Lemma is_near_route_segment_in_range (route_coords : list Coord) (station_coords : Coord)
    (threshold : R) (segment_start_index segment_end_index : nat) :
  (segment_end_index < length route_coords)%nat ->
  exists b,
    is_near_route_segment route_coords station_coords threshold
      (segment_range segment_start_index segment_end_index) = Some b
    /\ (b = true <->
        near_segment route_coords segment_start_index segment_end_index
          threshold station_coords).
Proof.
  intros Hend.
  destruct (is_near_route_segment_spec route_coords station_coords threshold
              (segment_range segment_start_index segment_end_index))
    as (b & Hb & Hiff).
  { apply Forall_forall. intros k Hk. apply segment_range_In in Hk. lia. }
  exists b. split; [exact Hb |]. rewrite Hiff. unfold near_segment.
  split; intros (k & p & Hk & H); exists k, p; (split; [| exact H]);
    now apply segment_range_In.
Qed.

Lemma candidates_loop_returned (route_coords : list Coord)
    (segment_start_index segment_end_index : nat)
    (threshold last_stop_distance : R) (all_gas_stations : list GasStation) :
  (segment_end_index < length route_coords)%nat ->
  Forall (fun s => has_coordinates s = true) all_gas_stations ->
  exists candidate_stations,
    candidates_loop route_coords segment_start_index segment_end_index
      threshold last_stop_distance all_gas_stations = Some candidate_stations
    /\ forall s, returned candidate_stations s
                 <-> In s all_gas_stations
                     /\ eligible route_coords segment_start_index segment_end_index
                          threshold last_stop_distance s.
Proof.
  intros Hend. induction all_gas_stations as [| station rest IH]; intros Hall.
  - exists []. split; [reflexivity |]. intros s. split.
    + intros (c & [] & _).
    + intros ([] & _).
  - inversion Hall as [| ? ? Hst Hrest]; subst.
    destruct (IH Hrest) as (cs & Hcs & Hiff). clear IH.
    unfold has_coordinates in Hst. cbn [candidates_loop].
    destruct (longitude station) as [lon |] eqn:Hlon;
      destruct (latitude station) as [lat |] eqn:Hlat; try discriminate.
    destruct (is_near_route_segment_in_range route_coords (lon, lat) threshold
                segment_start_index segment_end_index Hend) as (b & Hb & Hnear).
    rewrite Hb, Hcs.
    destruct (nth_error route_coords 0) as [first_point |] eqn:Hfirst.
    2:{ apply nth_error_None in Hfirst. lia. }
    assert (Hother : forall s, In s rest ->
              eligible route_coords segment_start_index segment_end_index
                threshold last_stop_distance s ->
              returned cs s) by (intros s Hin He; apply Hiff; auto).
    assert (Hskip : ~ eligible route_coords segment_start_index segment_end_index
                        threshold last_stop_distance station ->
              forall s, returned cs s
                        <-> In s (station :: rest)
                            /\ eligible route_coords segment_start_index
                                 segment_end_index threshold last_stop_distance s).
    { intros Hne s. rewrite Hiff. simpl. split.
      - intros [Hin He]; auto.
      - intros [[<- | Hin] He]; [contradiction | auto]. }
    destruct b.
    + destruct (Rgtb (haversine first_point (lon, lat)) last_stop_distance) eqn:Hgt.
      * eexists. split; [reflexivity |].
        apply Rgtb_spec in Hgt. intros s. split.
        -- intros (c & [<- | Hin] & Hc).
           ++ simpl in Hc. subst s. split; [now left |].
              exists lon, lat, first_point. repeat split; auto. now apply Hnear.
           ++ assert (Hr : returned cs s) by (exists c; auto).
              apply Hiff in Hr. destruct Hr; split; [now right | auto].
        -- intros [[<- | Hin] He].
           ++ eexists. split; [now left | reflexivity].
           ++ destruct (Hother s Hin He) as (c & Hc & Hs).
              exists c. split; [now right | auto].
      * exists cs. split; [reflexivity |]. apply Hskip.
        apply Rgtb_nspec in Hgt.
        intros (lon' & lat' & fp & Hlo & Hla & Hfp & _ & Hd).
        rewrite Hlon in Hlo. rewrite Hlat in Hla. rewrite Hfirst in Hfp.
        injection Hlo as <-. injection Hla as <-. injection Hfp as <-. lra.
    + exists cs. split; [reflexivity |]. apply Hskip.
      intros (lon' & lat' & fp & Hlo & Hla & _ & Hn & _).
      rewrite Hlon in Hlo. rewrite Hlat in Hla.
      injection Hlo as <-. injection Hla as <-.
      apply Hnear in Hn. discriminate.
Qed.

(** C2: over an index range that lies within the route, the candidate
    finder returns a list, and a station is returned if and only if it is
    in the catalog with both coordinates present, is closer than the
    proximity threshold to a route point of index in [[start, end]], and is
    farther from the first route point, in a straight line, than the last
    stop distance. *)
Theorem candidate_finder_returns_eligible (catalog : list GasStation)
    (route_coords : list Coord) (cumulative_distances : list R)
    (segment_start_index segment_end_index : nat)
    (threshold last_stop_distance : R) :
  (segment_end_index < length route_coords)%nat ->
  exists candidate_stations,
    find_candidate_stations_near_segment catalog route_coords cumulative_distances
      segment_start_index segment_end_index threshold last_stop_distance
    = Some candidate_stations
    /\ forall station,
         returned candidate_stations station
         <-> In station catalog
             /\ eligible route_coords segment_start_index segment_end_index
                  threshold last_stop_distance station.
Proof.
  intros Hend. unfold find_candidate_stations_near_segment.
  destruct (candidates_loop_returned route_coords segment_start_index
              segment_end_index threshold last_stop_distance
              (filter has_coordinates catalog) Hend)
    as (cs & Hcs & Hiff).
  { apply Forall_forall. intros s Hs. now apply filter_In in Hs. }
  exists cs. split; [exact Hcs |]. intros s. rewrite Hiff, filter_In.
  split.
  - intros [[Hin _] He]. auto.
  - intros [Hin He]. repeat split; auto.
    destruct He as (lon & lat & fp & Hlon & Hlat & _).
    unfold has_coordinates. now rewrite Hlon, Hlat.
Qed.

Lemma candidate_finder_returns_eligible_witness :
  exists candidate_stations,
    find_candidate_stations_near_segment Example.catalog Example.route [0; 7; 7; 100]
      0 1 10 0
    = Some candidate_stations
    /\ forall station,
         returned candidate_stations station
         <-> In station Example.catalog
             /\ eligible Example.route 0 1 10 0 station.
Proof.
  apply (candidate_finder_returns_eligible Example.catalog Example.route
           [0; 7; 7; 100] 0 1 10 0).
  simpl. lia.
Defined.

Lemma candidate_finder_total (catalog : list GasStation)
    (route_coords : list Coord) (cumulative_distances : list R)
    (segment_start_index segment_end_index : nat)
    (threshold last_stop_distance : R) :
  (segment_end_index < length route_coords)%nat ->
  exists candidate_stations,
    find_candidate_stations_near_segment catalog route_coords cumulative_distances
      segment_start_index segment_end_index threshold last_stop_distance
    = Some candidate_stations.
Proof.
  intros Hend. unfold find_candidate_stations_near_segment.
  destruct (candidates_loop_returned route_coords segment_start_index
              segment_end_index threshold last_stop_distance
              (filter has_coordinates catalog) Hend)
    as (cs & Hcs & _).
  { apply Forall_forall. intros s Hs. now apply filter_In in Hs. }
  exists cs. exact Hcs.
Qed.

(** ** Stop selector *)

Lemma find_route_point_index_bounds (cumulative_distances : list R)
    (target : R) (start_index : nat) :
  (start_index < length cumulative_distances)%nat ->
  (start_index
   <= find_route_point_index_by_distance cumulative_distances target start_index
   < length cumulative_distances)%nat.
Proof.
  intros Hlt. unfold find_route_point_index_by_distance.
  destruct (find _ _) as [j |] eqn:Hfind.
  - apply find_some in Hfind as [Hin _]. apply in_seq in Hin. lia.
  - lia.
Qed.

Lemma search_triggered_spec (cumulative_distances : list R)
    (total max_range : R) (i : nat) (last_stop : R) :
  search_triggered cumulative_distances total max_range i last_stop = Some true
  <-> trigger_condition cumulative_distances total max_range i last_stop.
Proof.
  unfold search_triggered, trigger_condition.
  destruct (nth_error cumulative_distances i) as [cur |].
  2:{ split; [discriminate | intros (? & ? & H & _); discriminate]. }
  cbv zeta.
  destruct (nth_error cumulative_distances _) as [tp |].
  2:{ split; [discriminate | intros (? & ? & _ & H & _); discriminate]. }
  split.
  - intros H. injection H as H. apply andb_true_iff in H as [Ha Hb].
    apply Rgtb_spec in Ha, Hb. exists cur, tp. auto.
  - intros (cur' & tp' & Hc & Ht & Ha & Hb).
    injection Hc as <-. injection Ht as <-.
    rewrite !Rgtb_true by assumption. reflexivity.
Qed.

Lemma search_triggered_total (cumulative_distances : list R)
    (total max_range : R) (i : nat) (last_stop : R) :
  (i < length cumulative_distances)%nat ->
  exists b, search_triggered cumulative_distances total max_range i last_stop = Some b.
Proof.
  intros Hi. unfold search_triggered.
  destruct (nth_error cumulative_distances i) as [cur |] eqn:Hcur.
  2:{ apply nth_error_None in Hcur. lia. }
  cbv zeta.
  pose proof (find_route_point_index_bounds cumulative_distances
                (last_stop + max_range) i Hi) as Hb.
  destruct (nth_error cumulative_distances
              (find_route_point_index_by_distance cumulative_distances
                 (last_stop + max_range) i)) as [tp |] eqn:Htp.
  2:{ apply nth_error_None in Htp. lia. }
  eexists. reflexivity.
Qed.

Lemma find_first_index (cumulative_distances : list R) (target : R) (n i : nat) :
  match find (fun j => Rgeb (nth j cumulative_distances 0) target) (seq i n) with
  | Some j =>
      (i <= j < i + n)%nat
      /\ nth j cumulative_distances 0 >= target
      /\ forall k, (i <= k < j)%nat -> nth k cumulative_distances 0 < target
  | None => forall k, (i <= k < i + n)%nat -> nth k cumulative_distances 0 < target
  end.
Proof.
  revert i. induction n as [| n IH]; intros i; simpl.
  - intros k Hk. lia.
  - destruct (Rgeb (nth i cumulative_distances 0) target) eqn:Hge.
    + apply Rgeb_spec in Hge. split; [lia | split; [exact Hge |]]. intros k Hk. lia.
    + apply Rgeb_nspec in Hge. specialize (IH (S i)).
      destruct (find _ (seq (S i) n)) as [j |].
      * destruct IH as (Hj & Hd & Hfirst). split; [lia | split; [exact Hd |]].
        intros k Hk. destruct (Nat.eq_dec k i) as [-> | Hne]; [exact Hge |].
        apply Hfirst. lia.
      * intros k Hk. destruct (Nat.eq_dec k i) as [-> | Hne]; [exact Hge |].
        apply IH. lia.
Qed.

Lemma trigger_condition_search (cumulative_distances : list R)
    (total max_range : R) (i : nat) (last_stop : R) :
  trigger_condition cumulative_distances total max_range i last_stop
  <-> search_condition cumulative_distances total max_range i last_stop.
Proof.
  unfold trigger_condition, search_condition, next_stop_target,
    find_route_point_index_by_distance.
  pose proof (find_first_index cumulative_distances (last_stop + max_range)
                (length cumulative_distances - i) i) as Hfind.
  split.
  - intros (cur & tp & Hcur & Htp & Ha & Hb).
    assert (Hi : (i < length cumulative_distances)%nat).
    { apply nth_error_Some. congruence. }
    destruct (find _ _) as [j |].
    + destruct Hfind as (Hj & Hd & Hfirst).
      exists cur, j, tp. repeat split; auto; try lia.
      * exists tp. split; [exact Htp |]. now rewrite <- (nth_error_nth _ _ 0 Htp).
      * intros k d Hk Hkd. rewrite <- (nth_error_nth _ _ 0 Hkd). now apply Hfirst.
    + exfalso.
      assert (Hlt : nth (length cumulative_distances - 1) cumulative_distances 0
                    < last_stop + max_range) by (apply Hfind; lia).
      rewrite (nth_error_nth _ _ 0 Htp) in Hlt. lra.
  - intros (cur & j & tp & Hcur & (Hij & (d & Hd & Hge) & Hfirst) & Htp & Ha & Hb).
    exists cur, tp. repeat split; auto.
    assert (Hj : (j < length cumulative_distances)%nat).
    { apply nth_error_Some. congruence. }
    destruct (find _ _) as [j' |].
    + destruct Hfind as (Hj' & Hd' & Hfirst').
      destruct (Nat.lt_trichotomy j j') as [Hlt | [-> | Hgt]]; [| exact Htp |].
      * specialize (Hfirst' j ltac:(lia)).
        rewrite (nth_error_nth _ _ 0 Hd) in Hfirst'. lra.
      * destruct (nth_error cumulative_distances j') as [d' |] eqn:Hd''.
        -- specialize (Hfirst j' d' ltac:(lia) Hd'').
           rewrite (nth_error_nth _ _ 0 Hd'') in Hd'. lra.
        -- apply nth_error_None in Hd''. lia.
    + specialize (Hfind j ltac:(lia)).
      rewrite (nth_error_nth _ _ 0 Hd) in Hfind. lra.
Qed.

Lemma find_stops_body_calls (catalog : list GasStation) (route_coords : list Coord)
    (cumulative_distances : list R) (total max_range : R)
    (st st' : LoopState) (i : nat) :
  find_stops_body catalog route_coords cumulative_distances total max_range st i
  = Some st' ->
  calls_triggered cumulative_distances total max_range (finder_calls st) ->
  calls_triggered cumulative_distances total max_range (finder_calls st').
Proof.
  unfold find_stops_body. intros Hbody Hcalls.
  destruct (nth_error cumulative_distances i) as [cur |]; [| discriminate].
  cbv zeta in Hbody.
  destruct (search_triggered _ _ _ _ _) as [[|] |] eqn:Htrig; try discriminate.
  - apply search_triggered_spec in Htrig.
    destruct (find_candidate_stations_near_segment _ _ _ _ _ _ _) as [cands |];
      [| discriminate].
    assert (Hnew : calls_triggered cumulative_distances total max_range
              (finder_calls st ++
               [{| call_start := i;
                   call_end := find_route_point_index_by_distance cumulative_distances
                     (cur + (max_range - (cur - last_stop_distance_from_start st))) i;
                   call_last_stop_distance := last_stop_distance_from_start st |}])).
    { apply Forall_app. split; [exact Hcalls |]. constructor; [exact Htrig | constructor]. }
    destruct (select_cheapest_stop cands); injection Hbody as <-; exact Hnew.
  - injection Hbody as <-. exact Hcalls.
Qed.

Lemma find_stops_loop_calls (catalog : list GasStation) (route_coords : list Coord)
    (cumulative_distances : list R) (total max_range : R)
    (indices : list nat) (st st' : LoopState) :
  find_stops_loop catalog route_coords cumulative_distances total max_range indices st
  = Some st' ->
  calls_triggered cumulative_distances total max_range (finder_calls st) ->
  calls_triggered cumulative_distances total max_range (finder_calls st').
Proof.
  revert st. induction indices as [| i indices IH]; intros st Hloop Hcalls.
  - simpl in Hloop. injection Hloop as <-. exact Hcalls.
  - simpl in Hloop.
    destruct (find_stops_body _ _ _ _ _ st i) as [st1 |] eqn:Hbody; [| discriminate].
    apply (IH st1 Hloop). eapply find_stops_body_calls; eauto.
Qed.

Lemma find_stops_body_total (catalog : list GasStation) (route_coords : list Coord)
    (cumulative_distances : list R) (total max_range : R) (st : LoopState) (i : nat) :
  length cumulative_distances = length route_coords ->
  (i < length route_coords)%nat ->
  exists st', find_stops_body catalog route_coords cumulative_distances
                total max_range st i = Some st'.
Proof.
  intros Hlen Hi. unfold find_stops_body.
  destruct (nth_error cumulative_distances i) as [cur |] eqn:Hcur.
  2:{ apply nth_error_None in Hcur. lia. }
  cbv zeta.
  destruct (search_triggered_total cumulative_distances total max_range i
              (last_stop_distance_from_start st)) as (b & Hb); [lia |].
  rewrite Hb. destruct b; [| eexists; reflexivity].
  set (la := find_route_point_index_by_distance cumulative_distances _ i).
  assert (Hla : (la < length route_coords)%nat).
  { unfold la. rewrite <- Hlen. apply find_route_point_index_bounds. lia. }
  destruct (candidate_finder_total catalog route_coords cumulative_distances i la
              proximity_threshold_miles (last_stop_distance_from_start st) Hla)
    as (cands & Hcands).
  rewrite Hcands. destruct (select_cheapest_stop cands); eexists; reflexivity.
Qed.

Lemma find_stops_loop_total (catalog : list GasStation) (route_coords : list Coord)
    (cumulative_distances : list R) (total max_range : R)
    (indices : list nat) (st : LoopState) :
  length cumulative_distances = length route_coords ->
  Forall (fun i => (i < length route_coords)%nat) indices ->
  exists st', find_stops_loop catalog route_coords cumulative_distances
                total max_range indices st = Some st'.
Proof.
  intros Hlen. revert st. induction indices as [| i indices IH]; intros st Hall.
  - eexists. reflexivity.
  - inversion Hall as [| ? ? Hi Hrest]; subst. simpl.
    destruct (find_stops_body_total catalog route_coords cumulative_distances
                total max_range st i Hlen Hi) as (st1 & Hst1).
    rewrite Hst1. apply IH. exact Hrest.
Qed.

Lemma find_stops_run_total (catalog : list GasStation) (route_coords : list Coord)
    (total max_range : R) :
  exists st, find_stops_run catalog route_coords total max_range = Some st.
Proof.
  unfold find_stops_run. cbv zeta.
  destruct route_coords as [| p rest] eqn:Hroute.
  - eexists. reflexivity.
  - rewrite <- Hroute. apply find_stops_loop_total.
    + rewrite calculate_cumulative_distances_length. subst. simpl. lia.
    + apply Forall_forall. intros i Hi. apply in_seq in Hi. lia.
Qed.

Lemma search_not_triggered (cumulative_distances : list R)
    (total max_range : R) (i : nat) (last_stop cur : R) :
  nth_error cumulative_distances i = Some cur ->
  total - cur <= max_range - (cur - last_stop) ->
  search_triggered cumulative_distances total max_range i last_stop = Some false.
Proof.
  intros Hcur Hle.
  assert (Hi : (i < length cumulative_distances)%nat).
  { apply nth_error_Some. congruence. }
  destruct (search_triggered_total cumulative_distances total max_range i last_stop Hi)
    as ([|] & Hb); [| exact Hb].
  apply search_triggered_spec in Hb.
  destruct Hb as (cur' & tp & Hc & _ & Ha & _).
  rewrite Hcur in Hc. injection Hc as <-. lra.
Qed.

Lemma find_stops_body_idle (catalog : list GasStation) (route_coords : list Coord)
    (cumulative_distances : list R) (total max_range : R) (st : LoopState)
    (i : nat) (cur : R) :
  nth_error cumulative_distances i = Some cur ->
  total - cur <= max_range - (cur - last_stop_distance_from_start st) ->
  find_stops_body catalog route_coords cumulative_distances total max_range st i
  = Some st.
Proof.
  intros Hcur Hle. unfold find_stops_body. rewrite Hcur. cbv zeta.
  now rewrite (search_not_triggered cumulative_distances total max_range i _ cur Hcur Hle).
Qed.

(** C1: the run of the stop selector ends, and every invocation of the
    candidate finder it made was made at an index [i] where, for the
    last-stop distance then in effect, (a) the remaining trip distance
    strictly exceeds the remaining range and (b) so does the distance from
    [cumulative[i]] to the next-stop-target point, the first route point
    from [i] on at or after the last-stop distance plus the range.  On a
    route of two points with a total of 400 miles and a range of 500 miles
    the loop ends in its initial state: no stop, and no invocation of the
    candidate finder. *)
Theorem stop_search_only_when_triggered :
  (forall (catalog : list GasStation) (route_coords : list Coord) (total max_range : R),
     exists st,
       find_stops_run catalog route_coords total max_range = Some st
       /\ forall call, In call (finder_calls st) ->
            search_condition (calculate_cumulative_distances route_coords total)
              total max_range (call_start call) (call_last_stop_distance call))
  /\ (forall (catalog : list GasStation) (p0 p1 : Coord),
        find_stops_run catalog [p0; p1] 400 500 = Some initial_state
        /\ find_stops catalog [p0; p1] 400 500 = Some []
        /\ finder_calls initial_state = []).
Proof.
  split.
  - intros catalog route_coords total max_range.
    destruct (find_stops_run_total catalog route_coords total max_range) as (st & Hst).
    exists st. split; [exact Hst |].
    intros call Hcall. apply trigger_condition_search. revert call Hcall.
    apply Forall_forall. unfold find_stops_run in Hst. cbv zeta in Hst.
    apply (find_stops_loop_calls _ _ _ _ _ _ _ _ Hst). constructor.
  - intros catalog p0 p1.
    assert (Hrun : find_stops_run catalog [p0; p1] 400 500 = Some initial_state).
    { unfold find_stops_run. cbv zeta.
      rewrite calculate_cumulative_distances_shape. cbv zeta.
      set (v := if Rgtb _ 1 then 400 else _). simpl.
      rewrite (find_stops_body_idle catalog [p0; p1] [0; v] 400 500 initial_state
                 0%nat 0) by (simpl; first [reflexivity | lra]).
      rewrite (find_stops_body_idle catalog [p0; p1] [0; v] 400 500 initial_state
                 1%nat v) by (simpl; first [reflexivity | lra]).
      reflexivity. }
    split; [exact Hrun | split; [| reflexivity]].
    unfold find_stops. rewrite Hrun. reflexivity.
Qed.

(** ** Deduplication and sorting *)





Section SortFacts.
Variable A : Type.
Variable key : A -> R.

Lemma insert_by_perm (x : A) (l : list A) : Permutation (insert_by key x l) (x :: l).
Proof.
  induction l as [| y l IH]; simpl; [reflexivity |].
  destruct (Rleb (key x) (key y)); [reflexivity |].
  rewrite IH. apply perm_swap.
Qed.

Lemma sort_by_perm (l : list A) : Permutation (sort_by key l) l.
Proof.
  induction l as [| x l IH]; simpl; [reflexivity |].
  rewrite insert_by_perm. now constructor.
Qed.

Lemma insert_by_sorted (x : A) (l : list A) :
  non_decreasing (map key l) -> non_decreasing (map key (insert_by key x l)).
Proof.
  unfold non_decreasing. induction l as [| y l IH]; simpl; intros Hs.
  - repeat constructor.
  - inversion Hs as [| ? ? Hs' Hf]; subst.
    destruct (Rleb (key x) (key y)) eqn:Hle; simpl.
    + apply Rleb_spec in Hle. constructor; [exact Hs |].
      constructor; [exact Hle |].
      eapply Forall_impl; [| exact Hf]. simpl; intros; lra.
    + apply Rleb_nspec in Hle. constructor; [apply IH; exact Hs' |].
      apply Forall_forall. intros k Hk.
      apply in_map_iff in Hk as (z & <- & Hz).
      apply (Permutation_in _ (insert_by_perm x l)) in Hz as [<- | Hz]; [lra |].
      rewrite Forall_forall in Hf. apply Hf. now apply in_map.
Qed.

Lemma sort_by_sorted (l : list A) : non_decreasing (map key (sort_by key l)).
Proof.
  induction l as [| x l IH]; simpl.
  - constructor.
  - now apply insert_by_sorted.
Qed.

(** A list that is already in order is left as it is. *)
Lemma sort_by_id (l : list A) : non_decreasing (map key l) -> sort_by key l = l.
Proof.
  unfold non_decreasing. induction l as [| x l IH]; simpl; intros Hs; [reflexivity |].
  inversion Hs as [| ? ? Hs' Hf]; subst. rewrite (IH Hs').
  destruct l as [| y l]; [reflexivity |]. simpl.
  inversion Hf; subst. now rewrite Rleb_true.
Qed.
End SortFacts.

Arguments insert_by_perm {A} key x l.
Arguments sort_by_perm {A} key l.
Arguments insert_by_sorted {A} key x l _.
Arguments sort_by_sorted {A} key l.
Arguments sort_by_id {A} key l _.


(** The run of the stop selector on the example data. *)
Ltac run_stops :=
  unfold find_stops_body, search_triggered, find_candidate_stations_near_segment,
    find_route_point_index_by_distance, segment_range, select_cheapest_stop,
    min_by_price, proximity_threshold_miles, deduplicate_stops_by_location;
  repeat first [ progress simpl | progress unfold seen, location_eqb | hav1 | cmp1 ].

Lemma example_table :
  calculate_cumulative_distances Example.route 100
  = [0; Example.mile_per_degree / 10; Example.mile_per_degree / 10; 100].
Proof.
  pose proof mile_per_degree_bounds as HK. unfold Example.mile_per_degree in *.
  rewrite calculate_cumulative_distances_shape. unfold Example.route. simpl.
  repeat hav1.
  rewrite Rgtb_true by (rewrite Rabs_left; lra).
  apply f_equal. apply f_equal2; [lra |]. apply f_equal2; [lra |]. reflexivity.
Qed.


Lemma example_run :
  find_stops_run Example.catalog Example.route 100 RoutePlanner.MAX_RANGE
  = Some Example.final_state.
Proof.
  pose proof mile_per_degree_bounds as HK.
  unfold find_stops_run, RoutePlanner.MAX_RANGE. rewrite example_table.
  unfold Example.final_state, Example.mile_per_degree in *.
  unfold Example.catalog, Example.route, Example.station_a, Example.station_b,
    Example.station_c, Example.station, initial_state.
  simpl. run_stops. reflexivity.
Qed.



(** ** Cost integrator *)

Module CostFacts.
Import RoutePlanner.

Lemma closest_fold_index (stop_coords : Coord) (l : list (nat * Coord))
    (acc : nat * option R) :
  let r := fst (fold_left
                  (fun (acc : nat * option R) (ip : nat * Coord) =>
                     let '(closest, min_dist_to_waypoint) := acc in
                     let '(i, route_point) := ip in
                     let dist := haversine stop_coords route_point in
                     if below dist min_dist_to_waypoint then (i, Some dist)
                     else (closest, min_dist_to_waypoint))
                  l acc) in
  r = fst acc \/ In r (map fst l).
Proof.
  revert acc. induction l as [| [i p] l IH]; intros [closest m]; simpl.
  - now left.
  - destruct (below (haversine stop_coords p) m).
    + destruct (IH (i, Some (haversine stop_coords p))) as [H | H]; simpl in H; auto.
    + destruct (IH (closest, m)) as [H | H]; simpl in H; auto.
Qed.

Lemma closest_route_point_index_bound (route_coords : list Coord) (stop_coords : Coord) :
  (closest_route_point_index route_coords stop_coords
   < Nat.max 1 (length route_coords))%nat.
Proof.
  unfold closest_route_point_index.
  destruct (closest_fold_index stop_coords
              (combine (seq 0 (length route_coords)) route_coords) (0%nat, None))
    as [H | H]; cbv zeta in H.
  - rewrite H. cbn [fst]. lia.
  - apply in_map_iff in H as ([i p] & Hi & Hin). simpl in Hi. rewrite <- Hi.
    apply in_combine_l in Hin. apply in_seq in Hin. lia.
Qed.

Lemma stop_waypoints_total (route_coords : list Coord) (total : R)
    (optimal_stops : list Stop) :
  stop_waypoints route_coords
    (calculate_cumulative_distances route_coords total) optimal_stops
  = Some (map (projected_distance route_coords
                 (calculate_cumulative_distances route_coords total))
              optimal_stops).
Proof.
  induction optimal_stops as [| stop rest IH]; simpl; [reflexivity |].
  unfold projected_distance at 1.
  set (k := closest_route_point_index route_coords _).
  destruct (nth_error (calculate_cumulative_distances route_coords total) k)
    as [d |] eqn:Hd.
  - rewrite IH. now rewrite (nth_error_nth _ _ 0 Hd).
  - apply nth_error_None in Hd.
    rewrite calculate_cumulative_distances_length in Hd.
    pose proof (closest_route_point_index_bound route_coords
                  (snd (stop_location stop), fst (stop_location stop))).
    fold k in H. lia.
Qed.

Lemma waypoint_distances_total (route_coords : list Coord) (total : R)
    (optimal_stops : list Stop) :
  exists w,
    waypoint_distances route_coords total optimal_stops = Some w
    /\ non_decreasing w
    /\ length w = (length optimal_stops + 2)%nat
    /\ Permutation w
         (0 :: map (projected_distance route_coords
                      (calculate_cumulative_distances route_coords total))
                   optimal_stops
            ++ [total]).
Proof.
  unfold waypoint_distances. cbv zeta.
  rewrite stop_waypoints_total. eexists. split; [reflexivity |].
  pose proof (sort_by_perm (fun d : R => d)
                ((0 :: map (projected_distance route_coords
                              (calculate_cumulative_distances route_coords total))
                           optimal_stops) ++ [total])) as Hperm.
  repeat split.
  - rewrite <- (map_id (sort_by _ _)). apply sort_by_sorted.
  - rewrite (Permutation_length Hperm). simpl. rewrite length_app, length_map. simpl. lia.
  - exact Hperm.
Qed.

Lemma current_price_spec (optimal_stops : list Stop) (i : nat) :
  (i <= length optimal_stops)%nat ->
  current_fuel_price_per_gallon optimal_stops i = Some (segment_price optimal_stops i).
Proof.
  intros Hi. unfold current_fuel_price_per_gallon, segment_price, DEFAULT_PRICE_PER_GALLON.
  destruct (Nat.eqb i 0) eqn:H0; [reflexivity |].
  apply Nat.eqb_neq in H0. cbv zeta.
  assert (Hlt : (i - 1 < length optimal_stops)%nat) by lia.
  apply Nat.ltb_lt in Hlt as Hb. rewrite Hb.
  destruct (nth_error optimal_stops (i - 1)) as [s |] eqn:Hs.
  - simpl. f_equal.
    rewrite (nth_indep _ _ (stop_fuel_price_per_gallon s))
      by (rewrite length_map; exact Hlt).
    rewrite map_nth. f_equal. symmetry. now apply nth_error_nth.
  - apply nth_error_None in Hs. lia.
Qed.

Lemma cost_loop_sum (w : list R) (optimal_stops : list Stop)
    (indices : list nat) (total_cost : R) :
  Forall (fun i => (i + 1 < length w)%nat /\ (i <= length optimal_stops)%nat) indices ->
  cost_loop w optimal_stops indices total_cost
  = Some (total_cost + fold_right Rplus 0 (map (segment_cost w optimal_stops) indices)).
Proof.
  revert total_cost. induction indices as [| i indices IH]; intros total_cost Hall.
  - simpl. f_equal. lra.
  - inversion Hall as [| ? ? [Hi Hs] Hrest]; subst. simpl.
    destruct (nth_error w i) as [a |] eqn:Ha.
    2:{ apply nth_error_None in Ha. lia. }
    destruct (nth_error w (i + 1)) as [b |] eqn:Hb.
    2:{ apply nth_error_None in Hb. lia. }
    rewrite (current_price_spec optimal_stops i Hs).
    rewrite (IH _ Hrest). f_equal.
    unfold segment_cost at 2, FUEL_EFFICIENCY.
    rewrite (nth_error_nth w i 0 Ha), (nth_error_nth w (i + 1) 0 Hb). lra.
Qed.

Lemma non_decreasing_nth (l : list R) (i j : nat) :
  non_decreasing l -> (i <= j < length l)%nat -> nth i l 0 <= nth j l 0.
Proof.
  unfold non_decreasing. intros Hs. revert i j.
  induction Hs as [| a l Hs IH Hf]; intros i j Hij; simpl in Hij; [lia |].
  destruct i as [| i], j as [| j]; simpl; try lra; try lia.
  - rewrite Forall_forall in Hf. apply Hf. apply nth_In. lia.
  - apply IH. lia.
Qed.



End CostFacts.



(** ** The planner *)

Module PlanFacts.
Import RoutePlanner.

Lemma plan_on_failure (catalog : list GasStation)
    (request : Coord -> Coord -> exn + Response) (start_coords end_coords : Coord)
    (e : string) :
  _get_initial_route (request start_coords end_coords) = inl e ->
  plan catalog request start_coords end_coords = Some (error_result e).
Proof. intros H. unfold plan. now rewrite H. Qed.

Lemma plan_on_success (catalog : list GasStation)
    (request : Coord -> Coord -> exn + Response) (start_coords end_coords : Coord)
    (coords : list Coord) (distance_m duration_s : R) :
  _get_initial_route (request start_coords end_coords)
  = inr (coords, distance_m, duration_s) ->
  let miles := distance_m / (160934 / 100) in
  exists stops cost,
    find_stops catalog coords miles MAX_RANGE = Some stops
    /\ _calculate_total_fuel_cost_on_route coords miles
         (sort_by distance_from_start_miles stops) = Some cost
    /\ plan catalog request start_coords end_coords
       = Some [("total_distance_miles"%string, VFloat (round2 miles));
               ("total_duration_seconds"%string, VFloat duration_s);
               ("total_fuel_cost_usd"%string, VFloat (round2 cost));
               ("fuel_stops"%string,
                VStops (sort_by distance_from_start_miles stops));
               ("route_geometry"%string,
                VCoords (map (fun coord : Coord => (snd coord, fst coord)) coords))].
Proof.
  intros H miles. unfold plan. rewrite H. fold miles.
  destruct (find_stops_run_total catalog coords miles MAX_RANGE) as (st & Hst).
  unfold find_stops at 1 2. rewrite Hst.
  set (stops := deduplicate_stops_by_location (optimal_stops st)).
  destruct (CostFacts.waypoint_distances_total coords miles
              (sort_by distance_from_start_miles stops))
    as (w & Hw & _ & Hlen & _).
  assert (Hcost : _calculate_total_fuel_cost_on_route coords miles
                    (sort_by distance_from_start_miles stops)
                  = Some (0 + fold_right Rplus 0
                            (map (segment_cost w (sort_by distance_from_start_miles stops))
                               (seq 0 (length w - 1))))).
  { unfold _calculate_total_fuel_cost_on_route. rewrite Hw.
    apply CostFacts.cost_loop_sum.
    apply Forall_forall. intros i Hi. apply in_seq in Hi. lia. }
  exists stops. eexists. split; [reflexivity |]. split; [exact Hcost |].
  rewrite Hcost. reflexivity.
Qed.

End PlanFacts.



(** With a range of one mile the trigger condition reads: the total
    exceeds the last-stop distance by more than a mile, and so does the
    distance of the next-stop-target point. *)
Lemma search_triggered_range_one (cumulative_distances : list R) (total : R)
    (i : nat) (last_stop : R) :
  search_triggered cumulative_distances total 1 i last_stop = Some true
  <-> exists current_distance target_point_distance,
        nth_error cumulative_distances i = Some current_distance
        /\ nth_error cumulative_distances
             (find_route_point_index_by_distance cumulative_distances
                (last_stop + 1) i) = Some target_point_distance
        /\ total > last_stop + 1
        /\ target_point_distance > last_stop + 1.
Proof.
  rewrite search_triggered_spec. unfold trigger_condition.
  split; intros (cur & tp & Hc & Ht & Ha & Hb); exists cur, tp;
    repeat split; auto; lra.
Qed.

Lemma find_route_point_index_here (cumulative_distances : list R) (target : R)
    (i : nat) (cur : R) :
  nth_error cumulative_distances i = Some cur ->
  cur >= target ->
  find_route_point_index_by_distance cumulative_distances target i = i.
Proof.
  intros Hcur Hge.
  assert (Hi : (i < length cumulative_distances)%nat).
  { apply nth_error_Some. congruence. }
  unfold find_route_point_index_by_distance.
  replace (length cumulative_distances - i)%nat
    with (S (length cumulative_distances - i - 1)) by lia.
  simpl. rewrite (nth_error_nth _ _ 0 Hcur). now rewrite Rgeb_true.
Qed.

Lemma search_triggered_beyond_one_mile (cumulative_distances : list R) (total : R)
    (i : nat) (last_stop cur : R) :
  nth_error cumulative_distances i = Some cur ->
  total > last_stop + 1 ->
  cur > last_stop + 1 ->
  search_triggered cumulative_distances total 1 i last_stop = Some true.
Proof.
  intros Hcur Ht Hc. apply search_triggered_range_one.
  exists cur, cur. repeat split; auto.
  rewrite (find_route_point_index_here cumulative_distances (last_stop + 1) i cur Hcur);
    [exact Hcur | lra].
Qed.

Lemma example_run_calls :
  option_map (fun st => map call_start (finder_calls st))
    (find_stops_run Example.catalog Example.route 100 RoutePlanner.MAX_RANGE)
  = Some [0; 1; 2; 3]%nat.
Proof. rewrite example_run. reflexivity. Qed.

(** C10: [MAX_RANGE] is 1, and whatever the origin, the destination and
    the route obtained, [plan] passes a range of exactly 1 mile to the stop
    selector and returns its stops, sorted.  With that range the search is
    triggered at index [i] exactly when the total and the distance of the
    next-stop-target point both exceed the last-stop distance by more than
    a mile; in particular at every index that lies more than a mile beyond
    the last stop, while more than a mile of the trip remains beyond that
    stop.  On the example route it is triggered at each of the four
    indices. *)
Theorem plan_uses_range_of_one_mile :
  RoutePlanner.MAX_RANGE = 1
  /\ (forall (catalog : list GasStation)
             (request : Coord -> Coord -> RoutePlanner.exn + RoutePlanner.Response)
             (start_coords end_coords : Coord)
             (coords : list Coord) (distance_m duration_s : R),
        RoutePlanner._get_initial_route (request start_coords end_coords)
        = inr (coords, distance_m, duration_s) ->
        exists stops cost,
          find_stops catalog coords (distance_m / (160934 / 100)) 1 = Some stops
          /\ RoutePlanner.plan catalog request start_coords end_coords
             = Some [("total_distance_miles"%string,
                      RoutePlanner.VFloat
                        (RoutePlanner.round2 (distance_m / (160934 / 100))));
                     ("total_duration_seconds"%string, RoutePlanner.VFloat duration_s);
                     ("total_fuel_cost_usd"%string,
                      RoutePlanner.VFloat (RoutePlanner.round2 cost));
                     ("fuel_stops"%string,
                      RoutePlanner.VStops (sort_by distance_from_start_miles stops));
                     ("route_geometry"%string,
                      RoutePlanner.VCoords
                        (map (fun coord : Coord => (snd coord, fst coord)) coords))])
  /\ (forall (cumulative_distances : list R) (total : R) (i : nat) (last_stop : R),
        search_triggered cumulative_distances total 1 i last_stop = Some true
        <-> exists current_distance target_point_distance,
              nth_error cumulative_distances i = Some current_distance
              /\ nth_error cumulative_distances
                   (find_route_point_index_by_distance cumulative_distances
                      (last_stop + 1) i) = Some target_point_distance
              /\ total > last_stop + 1
              /\ target_point_distance > last_stop + 1)
  /\ (forall (cumulative_distances : list R) (total : R) (i : nat)
             (last_stop current_distance : R),
        nth_error cumulative_distances i = Some current_distance ->
        total > last_stop + 1 ->
        current_distance > last_stop + 1 ->
        search_triggered cumulative_distances total 1 i last_stop = Some true)
  /\ option_map (fun st => map call_start (finder_calls st))
       (find_stops_run Example.catalog Example.route 100 RoutePlanner.MAX_RANGE)
     = Some [0; 1; 2; 3]%nat.
Proof.
  split; [reflexivity |]. split; [| split; [| split]].
  - intros catalog request start_coords end_coords coords distance_m duration_s H.
    destruct (PlanFacts.plan_on_success catalog request start_coords end_coords
                coords distance_m duration_s H) as (stops & cost & Hs & _ & Hp).
    exists stops, cost. split; [exact Hs | exact Hp].
  - apply search_triggered_range_one.
  - apply search_triggered_beyond_one_mile.
  - exact example_run_calls.
Qed.

Lemma plan_uses_range_of_one_mile_witness :
  exists stops cost,
    find_stops Example.catalog Example.route (160934 / (160934 / 100)) 1 = Some stops
    /\ RoutePlanner.plan Example.catalog Example.request (0, 0) (1, 0)
       = Some [("total_distance_miles"%string,
                RoutePlanner.VFloat (RoutePlanner.round2 (160934 / (160934 / 100))));
               ("total_duration_seconds"%string, RoutePlanner.VFloat 3600);
               ("total_fuel_cost_usd"%string,
                RoutePlanner.VFloat (RoutePlanner.round2 cost));
               ("fuel_stops"%string,
                RoutePlanner.VStops (sort_by distance_from_start_miles stops));
               ("route_geometry"%string,
                RoutePlanner.VCoords
                  (map (fun coord : Coord => (snd coord, fst coord)) Example.route))].
Proof.
  apply (proj1 (proj2 plan_uses_range_of_one_mile) Example.catalog Example.request
           (0, 0) (1, 0) Example.route 160934 3600).
  reflexivity.
Defined.

(** ** The theorems at the example data *)

Lemma stop_search_only_when_triggered_witness :
  search_condition (calculate_cumulative_distances Example.route 100) 100 1
    2 (Example.mile_per_degree / 10).
Proof.
  destruct (proj1 stop_search_only_when_triggered Example.catalog Example.route 100 1)
    as (st & Hst & Hcalls).
  pose proof example_run as Hrun. unfold RoutePlanner.MAX_RANGE in Hrun.
  rewrite Hrun in Hst. injection Hst as <-.
  apply (Hcalls {| call_start := 2; call_end := 3;
                   call_last_stop_distance := Example.mile_per_degree / 10 |}).
  simpl. auto.
Defined.

Lemma cumulative_distances_invariants_witness :
  last (calculate_cumulative_distances Example.route 100) 0 = 100.
Proof.
  apply (proj1 (proj2 (proj2 (proj2 (proj2
           (cumulative_distances_invariants Example.route 100)))))).
  pose proof mile_per_degree_bounds as HK. unfold Example.mile_per_degree in HK.
  unfold Example.route. simpl. repeat hav1.
  rewrite Rabs_left; lra.
Defined.

(** * Further properties of the code *)

(** ** Geodesic distance *)

Lemma PI_bounds : 3141 / 1000 < PI < 3142 / 1000.
Proof.
  pose proof (PI_2_3_7_ineq 2) as [Hlo Hhi].
  unfold sum_f_R0, tg_alt, PI_2_3_7_tg, Ratan_seq in Hlo, Hhi.
  simpl in Hlo, Hhi.
  split; lra.
Qed.

Lemma haversine_a_sym (coord1 coord2 : Coord) :
  haversine_a coord1 coord2 = haversine_a coord2 coord1.
Proof.
  destruct coord1 as [lon1 lat1], coord2 as [lon2 lat2].
  unfold haversine_a. cbv zeta.
  replace ((radians lat1 - radians lat2) / 2)
    with (- ((radians lat2 - radians lat1) / 2)) by lra.
  replace ((radians lon1 - radians lon2) / 2)
    with (- ((radians lon2 - radians lon1) / 2)) by lra.
  rewrite !sin_neg. ring.
Qed.

Lemma haversine_a_same (coord : Coord) : haversine_a coord coord = 0.
Proof.
  destruct coord as [lon lat]. unfold haversine_a. cbv zeta.
  replace ((radians lat - radians lat) / 2) with 0 by lra.
  replace ((radians lon - radians lon) / 2) with 0 by lra.
  rewrite sin_0. ring.
Qed.

(** X1: the distance is symmetric, zero from a point to itself, and lies
    between 0 and half the circumference of the sphere of radius 3956
    miles. *)
Theorem haversine_symmetric_zero_bounded (coord1 coord2 : Coord) :
  haversine coord1 coord2 = haversine coord2 coord1
  /\ haversine coord1 coord1 = 0
  /\ 0 <= haversine coord1 coord2 <= 3956 * PI.
Proof.
  split; [| split; [| split]].
  - unfold haversine. cbv zeta. now rewrite haversine_a_sym.
  - unfold haversine. cbv zeta. rewrite haversine_a_same, sqrt_0, asin_0. lra.
  - apply haversine_nonneg.
  - unfold haversine. cbv zeta.
    pose proof (asin_bound (sqrt (haversine_a coord1 coord2))). lra.
Qed.

(** X2: between two points of the equator at most 180 degrees of longitude
    apart the distance is [3956 * pi / 180] miles per degree, between 69.03
    and 69.06; from (0, 0) to (180, 0) it is [3956 * pi], within 50 miles of
    12428. *)
Theorem haversine_along_equator (lon1 lon2 : R) :
  Rabs (lon2 - lon1) <= 180 ->
  haversine (lon1, 0) (lon2, 0) = 3956 * (PI / 180) * Rabs (lon2 - lon1)
  /\ 6903 / 100 < 3956 * (PI / 180) < 6906 / 100
  /\ haversine (0, 0) (180, 0) = 3956 * PI
  /\ Rabs (haversine (0, 0) (180, 0) - 12428) <= 50.
Proof.
  intros Habs. pose proof PI_bounds as Hpi.
  assert (H180 : haversine (0, 0) (180, 0) = 3956 * PI).
  { rewrite (proj1 (haversine_equator 0 180 ltac:(lra))). lra. }
  split; [| split; [lra | split; [exact H180 |]]].
  - destruct (Rle_dec lon1 lon2) as [Hle | Hgt].
    + rewrite Rabs_pos_eq in * by lra.
      now rewrite (proj1 (haversine_equator lon1 lon2 ltac:(lra))).
    + rewrite Rabs_left in * by lra.
      rewrite (proj2 (haversine_equator lon2 lon1 ltac:(lra))). lra.
  - rewrite H180. apply Rabs_le. lra.
Qed.

Lemma haversine_along_equator_witness :
  haversine (0, 0) (1 / 10, 0) = 3956 * (PI / 180) * Rabs (1 / 10 - 0)
  /\ 6903 / 100 < 3956 * (PI / 180) < 6906 / 100
  /\ haversine (0, 0) (180, 0) = 3956 * PI
  /\ Rabs (haversine (0, 0) (180, 0) - 12428) <= 50.
Proof.
  apply (haversine_along_equator 0 (1 / 10)).
  rewrite Rabs_pos_eq; lra.
Defined.

(** ** Route projection *)


(** X4: the table has one entry per route point, and one entry for the
    empty route; it is never empty. *)
Theorem cumulative_table_length (route_coords : list Coord) (total : R) :
  length (calculate_cumulative_distances route_coords total)
  = Nat.max 1 (length route_coords)
  /\ calculate_cumulative_distances route_coords total <> [].
Proof.
  pose proof (calculate_cumulative_distances_length route_coords total) as Hlen.
  split; [exact Hlen |].
  intros E. rewrite E in Hlen. cbn [length] in Hlen. lia.
Qed.

(** ** Deduplication *)

Lemma dedup_loop_subsequence (stops_list : list Stop) (seen_locations : list Location) :
  subsequence (dedup_loop seen_locations stops_list) stops_list.
Proof.
  revert seen_locations.
  induction stops_list as [| x rest IH]; intros seen_locations; simpl.
  - constructor.
  - destruct (negb (seen seen_locations (stop_location x))); constructor; apply IH.
Qed.




(** ** Station candidate finder *)

Lemma is_near_route_segment_existsb (route_coords : list Coord) (station_coords : Coord)
    (threshold : R) (ks : list nat) :
  Forall (fun k => (k < length route_coords)%nat) ks ->
  is_near_route_segment route_coords station_coords threshold ks
  = Some (existsb (fun k => match nth_error route_coords k with
                            | Some p => Rltb (haversine station_coords p) threshold
                            | None => false
                            end) ks).
Proof.
  induction ks as [| k ks IH]; intros Hks; simpl; [reflexivity |].
  inversion Hks as [| ? ? Hk Hks']; subst.
  destruct (nth_error route_coords k) as [p |] eqn:Hp.
  - destruct (Rltb (haversine station_coords p) threshold); [reflexivity |].
    now apply IH.
  - apply nth_error_None in Hp. lia.
Qed.

Lemma candidates_loop_exact (route_coords : list Coord)
    (segment_start_index segment_end_index : nat)
    (threshold last_stop_distance : R) (all_gas_stations : list GasStation) :
  (segment_end_index < length route_coords)%nat ->
  Forall (fun s => has_coordinates s = true) all_gas_stations ->
  exists candidate_stations,
    candidates_loop route_coords segment_start_index segment_end_index
      threshold last_stop_distance all_gas_stations = Some candidate_stations
    /\ map station_obj candidate_stations
       = filter (eligibleb route_coords segment_start_index segment_end_index
                   threshold last_stop_distance) all_gas_stations
    /\ Forall (candidate_of_station route_coords) candidate_stations.
Proof.
  intros Hend. induction all_gas_stations as [| station rest IH]; intros Hall.
  - exists []. repeat split; constructor.
  - inversion Hall as [| ? ? Hst Hrest]; subst.
    destruct (IH Hrest) as (cs & Hcs & Hmap & Hfields). clear IH.
    unfold has_coordinates in Hst. cbn [candidates_loop filter].
    unfold eligibleb at 1.
    destruct (longitude station) as [lon |] eqn:Hlon;
      destruct (latitude station) as [lat |] eqn:Hlat; try discriminate.
    rewrite is_near_route_segment_existsb.
    2:{ apply Forall_forall. intros k Hk. apply segment_range_In in Hk. lia. }
    fold (near_segmentb route_coords segment_start_index segment_end_index
            threshold (lon, lat)).
    destruct (nth_error route_coords 0) as [first_point |] eqn:Hfirst.
    2:{ apply nth_error_None in Hfirst. lia. }
    rewrite Hcs.
    destruct (near_segmentb _ _ _ _ _); cbn [andb].
    + destruct (Rgtb (haversine first_point (lon, lat)) last_stop_distance).
      * eexists. split; [reflexivity |]. split.
        -- simpl. f_equal. exact Hmap.
        -- constructor; [| exact Hfields].
           exists lon, lat, first_point. cbn. repeat split; auto.
      * exists cs. auto.
    + exists cs. auto.
Qed.

Lemma filter_eligible_has_coordinates (route_coords : list Coord)
    (segment_start_index segment_end_index : nat)
    (threshold last_stop_distance : R) (catalog : list GasStation) :
  filter (eligibleb route_coords segment_start_index segment_end_index
            threshold last_stop_distance) (filter has_coordinates catalog)
  = filter (eligibleb route_coords segment_start_index segment_end_index
              threshold last_stop_distance) catalog.
Proof.
  induction catalog as [| s rest IH]; simpl; [reflexivity |].
  destruct (has_coordinates s) eqn:Hc; simpl; rewrite IH; [reflexivity |].
  unfold eligibleb, has_coordinates in *.
  destruct (longitude s), (latitude s); try discriminate; reflexivity.
Qed.

Lemma candidate_finder_exact (catalog : list GasStation)
    (route_coords : list Coord) (cumulative_distances : list R)
    (segment_start_index segment_end_index : nat)
    (threshold last_stop_distance : R) :
  (segment_end_index < length route_coords)%nat ->
  exists candidate_stations,
    find_candidate_stations_near_segment catalog route_coords cumulative_distances
      segment_start_index segment_end_index threshold last_stop_distance
    = Some candidate_stations
    /\ map station_obj candidate_stations
       = filter (eligibleb route_coords segment_start_index segment_end_index
                   threshold last_stop_distance) catalog
    /\ Forall (candidate_of_station route_coords) candidate_stations.
Proof.
  intros Hend. unfold find_candidate_stations_near_segment.
  destruct (candidates_loop_exact route_coords segment_start_index
              segment_end_index threshold last_stop_distance
              (filter has_coordinates catalog) Hend)
    as (cs & Hcs & Hmap & Hfields).
  { apply Forall_forall. intros s Hs. now apply filter_In in Hs. }
  exists cs. split; [exact Hcs |]. split; [| exact Hfields].
  rewrite Hmap. apply filter_eligible_has_coordinates.
Qed.

(** X6: over a window that lies within the route the candidates are, in
    the order of the catalog and one per catalog record, the stations that
    pass the filter (both coordinates present, closer than the threshold to
    a route point of the window, farther from the first route point than
    the last stop distance); each candidate carries its station's
    [[latitude, longitude]], its retail price and its straight-line distance
    from the first route point. *)
Theorem candidate_finder_is_filter (catalog : list GasStation)
    (route_coords : list Coord) (cumulative_distances : list R)
    (segment_start_index segment_end_index : nat)
    (threshold last_stop_distance : R) :
  (segment_end_index < length route_coords)%nat ->
  exists candidate_stations,
    find_candidate_stations_near_segment catalog route_coords cumulative_distances
      segment_start_index segment_end_index threshold last_stop_distance
    = Some candidate_stations
    /\ map station_obj candidate_stations
       = filter (eligibleb route_coords segment_start_index segment_end_index
                   threshold last_stop_distance) catalog
    /\ Forall (candidate_of_station route_coords) candidate_stations.
Proof. apply candidate_finder_exact. Qed.

Lemma candidate_finder_is_filter_witness :
  exists candidate_stations,
    find_candidate_stations_near_segment Example.catalog Example.route [] 0 1 10 0
    = Some candidate_stations
    /\ map station_obj candidate_stations
       = filter (eligibleb Example.route 0 1 10 0) Example.catalog
    /\ Forall (candidate_of_station Example.route) candidate_stations.
Proof.
  apply (candidate_finder_is_filter Example.catalog Example.route [] 0 1 10 0).
  simpl. lia.
Defined.

Lemma is_near_route_segment_beyond (route_coords : list Coord) (station_coords : Coord)
    (threshold : R) (n start : nat) :
  (0 < n)%nat ->
  (length route_coords < start + n)%nat ->
  (forall k p, (start <= k)%nat -> nth_error route_coords k = Some p ->
               threshold <= haversine station_coords p) ->
  is_near_route_segment route_coords station_coords threshold (seq start n) = None.
Proof.
  revert start. induction n as [| n IH]; intros start Hn Hlen Hfar; [lia |].
  simpl. destruct (nth_error route_coords start) as [p |] eqn:Hp; [| reflexivity].
  rewrite Rltb_false by (apply (Hfar start p); [lia | exact Hp]).
  assert (Hstart : (start < length route_coords)%nat).
  { apply nth_error_Some. congruence. }
  apply IH; try lia.
  intros k q Hk Hq. apply (Hfar k q); [lia | exact Hq].
Qed.

Lemma candidates_loop_raises (route_coords : list Coord)
    (segment_start_index segment_end_index : nat)
    (threshold last_stop_distance : R) (all_gas_stations : list GasStation)
    (station : GasStation) (lon lat : R) :
  In station all_gas_stations ->
  longitude station = Some lon ->
  latitude station = Some lat ->
  is_near_route_segment route_coords (lon, lat) threshold
    (segment_range segment_start_index segment_end_index) = None ->
  candidates_loop route_coords segment_start_index segment_end_index
    threshold last_stop_distance all_gas_stations = None.
Proof.
  intros Hin Hlon Hlat Hnear.
  induction all_gas_stations as [| s rest IH]; [contradiction |].
  cbn [candidates_loop].
  destruct Hin as [-> | Hin].
  - rewrite Hlon, Hlat, Hnear. reflexivity.
  - rewrite (IH Hin).
    destruct (longitude s) as [lo |]; [| reflexivity].
    destruct (latitude s) as [la |]; [| reflexivity].
    destruct (is_near_route_segment route_coords (lo, la) threshold
                (segment_range segment_start_index segment_end_index))
      as [[|] |]; try reflexivity.
    destruct (nth_error route_coords 0); [| reflexivity].
    destruct (Rgtb _ _); reflexivity.
Qed.

(** X7: the finder raises [IndexError] when the window reaches beyond the
    route and the catalog holds a station, with both coordinates, that is
    not closer than the threshold to any route point from the start of the
    window on: the loop over the window then reads a route point that does
    not exist. *)
Theorem candidate_finder_raises_beyond_route (catalog : list GasStation)
    (route_coords : list Coord) (cumulative_distances : list R)
    (segment_start_index segment_end_index : nat)
    (threshold last_stop_distance : R) (station : GasStation) (lon lat : R) :
  In station catalog ->
  longitude station = Some lon ->
  latitude station = Some lat ->
  (segment_start_index <= segment_end_index)%nat ->
  (length route_coords <= segment_end_index)%nat ->
  (forall k p, (segment_start_index <= k)%nat -> nth_error route_coords k = Some p ->
               threshold <= haversine (lon, lat) p) ->
  find_candidate_stations_near_segment catalog route_coords cumulative_distances
    segment_start_index segment_end_index threshold last_stop_distance = None.
Proof.
  intros Hin Hlon Hlat Hse Hlen Hfar.
  unfold find_candidate_stations_near_segment.
  apply (candidates_loop_raises _ _ _ _ _ _ station lon lat); auto.
  - apply filter_In. split; [exact Hin |].
    unfold has_coordinates. now rewrite Hlon, Hlat.
  - unfold segment_range. apply is_near_route_segment_beyond; auto; lia.
Qed.

Lemma candidate_finder_raises_beyond_route_witness :
  find_candidate_stations_near_segment Example.catalog Example.route [] 3 5 10 0 = None.
Proof.
  apply (candidate_finder_raises_beyond_route Example.catalog Example.route [] 3 5 10 0
           Example.station_a (-1 / 10) 0).
  - simpl. auto.
  - reflexivity.
  - reflexivity.
  - lia.
  - simpl. lia.
  - intros k p Hk Hp.
    destruct k as [| [| [| [| k]]]]; try lia.
    + injection Hp as <-.
      pose proof mile_per_degree_bounds as HK. unfold Example.mile_per_degree in HK.
      rewrite (proj1 (haversine_equator (-1 / 10) 1 ltac:(lra))). lra.
    + destruct k; discriminate.
Defined.

Lemma candidates_loop_empty_window (route_coords : list Coord)
    (segment_start_index segment_end_index : nat)
    (threshold last_stop_distance : R) (all_gas_stations : list GasStation) :
  segment_range segment_start_index segment_end_index = [] ->
  Forall (fun s => has_coordinates s = true) all_gas_stations ->
  candidates_loop route_coords segment_start_index segment_end_index
    threshold last_stop_distance all_gas_stations = Some [].
Proof.
  intros Hrange Hall. induction Hall as [| s rest Hs Hrest IH]; [reflexivity |].
  cbn [candidates_loop]. rewrite Hrange, IH. cbn [is_near_route_segment].
  unfold has_coordinates in Hs.
  destruct (longitude s), (latitude s); try discriminate; reflexivity.
Qed.

(** X8: a window whose start lies after its end, and a catalog in which no
    station has both coordinates, give the empty list whatever the route and
    the window: no route point is read. *)
Theorem candidate_finder_empty_cases (catalog : list GasStation)
    (route_coords : list Coord) (cumulative_distances : list R)
    (segment_start_index segment_end_index gap : nat)
    (threshold last_stop_distance : R) :
  find_candidate_stations_near_segment catalog route_coords cumulative_distances
    (S (segment_end_index + gap)) segment_end_index threshold last_stop_distance
  = Some []
  /\ find_candidate_stations_near_segment
       (filter (fun s => negb (has_coordinates s)) catalog)
       route_coords cumulative_distances
       segment_start_index segment_end_index threshold last_stop_distance
     = Some [].
Proof.
  unfold find_candidate_stations_near_segment. split.
  - apply candidates_loop_empty_window.
    + unfold segment_range.
      replace (segment_end_index + 1 - S (segment_end_index + gap))%nat with 0%nat by lia.
      reflexivity.
    + apply Forall_forall. intros s Hs. now apply filter_In in Hs.
  - replace (filter has_coordinates
               (filter (fun s => negb (has_coordinates s)) catalog)) with (@nil GasStation);
      [reflexivity |].
    induction catalog as [| s rest IH]; [reflexivity |].
    simpl. destruct (has_coordinates s) eqn:Hs; simpl; [exact IH |].
    now rewrite Hs.
Qed.

(** ** Stop selector *)

Lemma select_cheapest_stop_In (candidate_stations : list Candidate) (c : Candidate) :
  select_cheapest_stop candidate_stations = Some c -> In c candidate_stations.
Proof.
  destruct candidate_stations as [| c0 rest]; [discriminate |].
  intros H.
  destruct (min_by_price_first_minimum rest [] [] c0 (Forall_nil _) (Forall_nil _))
    as (pre & c' & post & Heq & Hmin & _).
  simpl in H, Heq. rewrite Hmin in H. injection H as <-.
  rewrite Heq. apply in_or_app. right. now left.
Qed.

Lemma selection_invariant_next (catalog : list GasStation)
    (cumulative_distances : list R) (n i : nat) (st : LoopState) :
  selection_invariant catalog cumulative_distances n i st ->
  selection_invariant catalog cumulative_distances n (S i) st.
Proof.
  intros (Hstops & Hcalls & Hlen & Hsorted). repeat split; auto; try lia.
  - eapply Forall_impl; [| exact Hstops].
    intros s (Hs & k & Hk & Hd). split; [exact Hs |]. exists k. split; [lia | exact Hd].
  - eapply Forall_impl; [| exact Hcalls]. intros c (Hc & Hw). split; [lia | exact Hw].
Qed.

Lemma find_stops_body_invariant (catalog : list GasStation) (route_coords : list Coord)
    (cumulative_distances : list R) (total max_range : R)
    (st st' : LoopState) (i : nat) :
  length cumulative_distances = length route_coords ->
  (i < length route_coords)%nat ->
  find_stops_body catalog route_coords cumulative_distances total max_range st i
  = Some st' ->
  selection_invariant catalog cumulative_distances (length route_coords) i st ->
  selection_invariant catalog cumulative_distances (length route_coords) (S i) st'.
Proof.
  intros Hlen Hi Hbody Hinv.
  pose proof (selection_invariant_next _ _ _ _ _ Hinv) as Hnext.
  unfold find_stops_body in Hbody.
  destruct (nth_error cumulative_distances i) as [cur |] eqn:Hcur; [| discriminate].
  cbv zeta in Hbody.
  destruct (search_triggered _ _ _ _ _) as [[|] |]; try discriminate.
  2:{ injection Hbody as <-. exact Hnext. }
  set (la := find_route_point_index_by_distance cumulative_distances
               (cur + (max_range - (cur - last_stop_distance_from_start st))) i) in *.
  assert (Hla : (i <= la < length route_coords)%nat).
  { unfold la. rewrite <- Hlen. apply find_route_point_index_bounds. lia. }
  destruct (candidate_finder_exact catalog route_coords cumulative_distances i la
              proximity_threshold_miles (last_stop_distance_from_start st)
              ltac:(lia)) as (cands & Hcands & Hmap & Hfields).
  rewrite Hcands in Hbody.
  destruct Hnext as (Hstops & Hcalls & Hcount & Hsorted).
  assert (Hcalls' :
            Forall (fun c => (call_start c < S i)%nat
                             /\ window_in_route (length route_coords) c)
              (finder_calls st ++
               [{| call_start := i; call_end := la;
                   call_last_stop_distance := last_stop_distance_from_start st |}])).
  { apply Forall_app. split; [exact Hcalls |].
    constructor; [| constructor]. unfold window_in_route. simpl. lia. }
  destruct Hinv as (_ & _ & Hcount0 & _).
  destruct (select_cheapest_stop cands) as [c |] eqn:Hsel; injection Hbody as <-.
  - apply select_cheapest_stop_In in Hsel.
    repeat split; cbn [optimal_stops finder_calls].
    + apply Forall_app. split; [exact Hstops |]. constructor; [| constructor]. split.
      * rewrite Forall_forall in Hfields.
        destruct (Hfields c Hsel) as (lon & lat & fp & Hlon & Hlat & _ & Hloc & Hprice & _).
        exists (station_obj c), lat, lon. cbn. repeat split; auto.
        assert (Hin : In (station_obj c) (map station_obj cands)) by now apply in_map.
        rewrite Hmap in Hin. now apply filter_In in Hin.
      * exists i. cbn. split; [lia | exact Hcur].
    + exact Hcalls'.
    + rewrite !length_app. simpl. lia.
    + rewrite !length_app. simpl. lia.
    + intros Hcum. rewrite map_app. cbn [map distance_from_start_miles].
      apply non_decreasing_app; [now apply Hsorted |].
      apply Forall_forall. intros d Hd.
      apply in_map_iff in Hd as (s & <- & Hs).
      rewrite Forall_forall in Hstops.
      destruct (Hstops s Hs) as (_ & k & Hk & Hdk).
      rewrite <- (nth_error_nth _ _ 0 Hdk), <- (nth_error_nth _ _ 0 Hcur).
      apply CostFacts.non_decreasing_nth; [exact Hcum | lia].
  - repeat split; cbn [optimal_stops finder_calls]; auto.
    + rewrite length_app. simpl. lia.
    + rewrite length_app. simpl. lia.
Qed.

Lemma find_stops_loop_invariant (catalog : list GasStation) (route_coords : list Coord)
    (cumulative_distances : list R) (total max_range : R) (n i : nat)
    (st st' : LoopState) :
  length cumulative_distances = length route_coords ->
  (i + n <= length route_coords)%nat ->
  find_stops_loop catalog route_coords cumulative_distances total max_range
    (seq i n) st = Some st' ->
  selection_invariant catalog cumulative_distances (length route_coords) i st ->
  selection_invariant catalog cumulative_distances (length route_coords) (i + n) st'.
Proof.
  intros Hlen. revert i st.
  induction n as [| n IH]; intros i st Hin Hloop Hinv; simpl in Hloop.
  - injection Hloop as <-. now rewrite Nat.add_0_r.
  - destruct (find_stops_body _ _ _ _ _ st i) as [st1 |] eqn:Hbody; [| discriminate].
    replace (i + S n)%nat with (S i + n)%nat by lia.
    apply (IH (S i) st1); [lia | exact Hloop |].
    eapply find_stops_body_invariant; eauto. lia.
Qed.

Lemma find_stops_run_invariant (catalog : list GasStation) (route_coords : list Coord)
    (total max_range : R) :
  exists st,
    find_stops_run catalog route_coords total max_range = Some st
    /\ selection_invariant catalog
         (calculate_cumulative_distances route_coords total)
         (length route_coords) (length route_coords) st.
Proof.
  destruct (find_stops_run_total catalog route_coords total max_range) as (st & Hst).
  exists st. split; [exact Hst |].
  assert (Hinit : selection_invariant catalog
                    (calculate_cumulative_distances route_coords total)
                    (length route_coords) 0 initial_state).
  { repeat split; simpl; auto; constructor. }
  unfold find_stops_run in Hst. cbv zeta in Hst.
  destruct route_coords as [| p rest] eqn:Hroute.
  - simpl in Hst. injection Hst as <-. exact Hinit.
  - rewrite <- Hroute in *.
    apply (find_stops_loop_invariant catalog route_coords _ total max_range
             (length route_coords) 0 initial_state st); auto.
    rewrite calculate_cumulative_distances_length. subst. simpl. lia.
Qed.

Lemma subsequence_In {A : Type} (l1 l2 : list A) (x : A) :
  subsequence l1 l2 -> In x l1 -> In x l2.
Proof.
  induction 1 as [| y l1 l2 _ IH | y l1 l2 _ IH]; simpl; intuition.
Qed.

Lemma subsequence_length {A : Type} (l1 l2 : list A) :
  subsequence l1 l2 -> (length l1 <= length l2)%nat.
Proof. induction 1; simpl; lia. Qed.

Lemma subsequence_map {A B : Type} (f : A -> B) (l1 l2 : list A) :
  subsequence l1 l2 -> subsequence (map f l1) (map f l2).
Proof. induction 1; simpl; constructor; auto. Qed.

Lemma subsequence_non_decreasing (l1 l2 : list R) :
  subsequence l1 l2 -> non_decreasing l2 -> non_decreasing l1.
Proof.
  unfold non_decreasing.
  induction 1 as [| y l1 l2 Hsub IH | y l1 l2 Hsub IH]; intros Hs.
  - constructor.
  - inversion Hs as [| ? ? Hs' Hf]; subst. constructor; [now apply IH |].
    apply Forall_forall. intros x Hx. rewrite Forall_forall in Hf.
    apply Hf. eapply subsequence_In; eauto.
  - inversion Hs; subst. now apply IH.
Qed.

Lemma find_stops_run_idle (catalog : list GasStation)
    (route_coords : list Coord) (total max_range : R) :
  total <= max_range ->
  find_stops_run catalog route_coords total max_range = Some initial_state.
Proof.
  intros Hle.
  unfold find_stops_run. cbv zeta.
  set (cum := calculate_cumulative_distances route_coords total).
  assert (Hlen : (length route_coords <= length cum)%nat).
  { unfold cum. rewrite calculate_cumulative_distances_length. lia. }
  assert (Hloop : forall n i, (i + n <= length cum)%nat ->
            find_stops_loop catalog route_coords cum total max_range
              (seq i n) initial_state = Some initial_state).
  { induction n as [| n IH]; intros i Hin; simpl; [reflexivity |].
    destruct (nth_error cum i) as [cur |] eqn:Hcur.
    2:{ apply nth_error_None in Hcur. lia. }
    rewrite (find_stops_body_idle catalog route_coords cum total max_range
               initial_state i cur Hcur) by (simpl; lra).
    apply IH. lia. }
  apply Hloop. lia.
Qed.

Lemma find_stops_run_from_catalog (catalog : list GasStation)
    (route_coords : list Coord) (total max_range : R) :
  exists st,
    find_stops_run catalog route_coords total max_range = Some st
    /\ Forall (fun s => stop_from_catalog catalog s
                        /\ stop_at_route_index
                             (calculate_cumulative_distances route_coords total)
                             (length route_coords) s)
              (deduplicate_stops_by_location (optimal_stops st))
    /\ (length (deduplicate_stops_by_location (optimal_stops st))
        <= length route_coords)%nat.
Proof.
  destruct (find_stops_run_invariant catalog route_coords total max_range)
    as (st & Hst & Hstops & _ & Hcount & _).
  exists st. split; [exact Hst |].
  pose proof (dedup_loop_subsequence (optimal_stops st) []) as Hsub.
  split.
  - apply Forall_forall. intros s Hs. rewrite Forall_forall in Hstops.
    apply Hstops. eapply subsequence_In; eauto.
  - apply subsequence_length in Hsub.
    unfold deduplicate_stops_by_location. lia.
Qed.

Lemma find_stops_empty_catalog (route_coords : list Coord) (total max_range : R) :
  find_stops [] route_coords total max_range = Some [].
Proof.
  destruct (find_stops_run_from_catalog [] route_coords total max_range)
    as (st & Hst & Hall & _).
  unfold find_stops. rewrite Hst.
  destruct (deduplicate_stops_by_location (optimal_stops st)) as [| s rest];
    [reflexivity |].
  inversion Hall as [| ? ? [(station & ? & ? & [] & _) _] _].
Qed.

(** X9: when the declared total does not exceed the range, the selector
    visits every index without ever invoking the candidate finder, and
    selects no stop, whatever the route and the catalog. *)
Theorem find_stops_idle_within_range (catalog : list GasStation)
    (route_coords : list Coord) (total max_range : R) :
  total <= max_range ->
  find_stops_run catalog route_coords total max_range = Some initial_state
  /\ find_stops catalog route_coords total max_range = Some [].
Proof.
  intros Hle.
  pose proof (find_stops_run_idle catalog route_coords total max_range Hle) as Hrun.
  split; [exact Hrun |]. unfold find_stops. now rewrite Hrun.
Qed.

Lemma find_stops_idle_within_range_witness :
  find_stops_run Example.catalog Example.route 50 100 = Some initial_state
  /\ find_stops Example.catalog Example.route 50 100 = Some [].
Proof.
  apply (find_stops_idle_within_range Example.catalog Example.route 50 100). lra.
Defined.

(** X10: every stop returned by the selector has the
    [[latitude, longitude]] and the retail price of a station of the catalog
    that has both coordinates, and is recorded at the cumulative distance of
    a route index; there are at most as many stops as route points, and
    none when the catalog is empty. *)
Theorem find_stops_selects_catalog_stations (catalog : list GasStation)
    (route_coords : list Coord) (total max_range : R) :
  (exists stops,
     find_stops catalog route_coords total max_range = Some stops
     /\ Forall (fun s => stop_from_catalog catalog s
                         /\ stop_at_route_index
                              (calculate_cumulative_distances route_coords total)
                              (length route_coords) s)
               stops
     /\ (length stops <= length route_coords)%nat)
  /\ find_stops [] route_coords total max_range = Some [].
Proof.
  split.
  - destruct (find_stops_run_from_catalog catalog route_coords total max_range)
      as (st & Hst & Hall & Hlen).
    exists (deduplicate_stops_by_location (optimal_stops st)).
    split; [unfold find_stops; now rewrite Hst | auto].
  - apply find_stops_empty_catalog.
Qed.

(** X11: the selector invokes the candidate finder at most once per route
    index, only on windows that start at an index of the route and end,
    at or after their start, within the route, so that the [IndexError] of
    a window beyond the route cannot occur; it records at most one stop per
    invocation. *)
Theorem find_stops_windows_within_route (catalog : list GasStation)
    (route_coords : list Coord) (total max_range : R) :
  exists st,
    find_stops_run catalog route_coords total max_range = Some st
    /\ Forall (window_in_route (length route_coords)) (finder_calls st)
    /\ (length (optimal_stops st) <= length (finder_calls st)
        <= length route_coords)%nat.
Proof.
  destruct (find_stops_run_invariant catalog route_coords total max_range)
    as (st & Hst & _ & Hcalls & Hcount & _).
  exists st. split; [exact Hst |]. split; [| exact Hcount].
  eapply Forall_impl; [| exact Hcalls]. intros c [_ Hw]. exact Hw.
Qed.

(** X12: when the cumulative table is non-decreasing, the stops returned by
    the selector are already in non-decreasing order of distance, and the
    planner's sort leaves the list as it is. *)
Theorem find_stops_already_sorted (catalog : list GasStation)
    (route_coords : list Coord) (total max_range : R) :
  non_decreasing (calculate_cumulative_distances route_coords total) ->
  exists stops,
    find_stops catalog route_coords total max_range = Some stops
    /\ non_decreasing (map distance_from_start_miles stops)
    /\ sort_by distance_from_start_miles stops = stops.
Proof.
  intros Hcum.
  destruct (find_stops_run_invariant catalog route_coords total max_range)
    as (st & Hst & _ & _ & _ & Hsorted).
  exists (deduplicate_stops_by_location (optimal_stops st)).
  split; [unfold find_stops; now rewrite Hst |].
  assert (Hs : non_decreasing
                 (map distance_from_start_miles
                    (deduplicate_stops_by_location (optimal_stops st)))).
  { apply (subsequence_non_decreasing _
             (map distance_from_start_miles (optimal_stops st))).
    - apply subsequence_map. apply dedup_loop_subsequence.
    - now apply Hsorted. }
  split; [exact Hs |]. now apply sort_by_id.
Qed.

Lemma find_stops_already_sorted_witness :
  exists stops,
    find_stops Example.catalog Example.route 100 1 = Some stops
    /\ non_decreasing (map distance_from_start_miles stops)
    /\ sort_by distance_from_start_miles stops = stops.
Proof.
  apply (find_stops_already_sorted Example.catalog Example.route 100 1).
  rewrite example_table.
  pose proof mile_per_degree_bounds as HK.
  unfold non_decreasing. repeat (constructor; try lra).
Defined.

(** ** Cost integrator *)

Module CostMore.
Import RoutePlanner.

Lemma closest_fold_first_minimum (stop_coords : Coord) (pts : list Coord)
    (s c : nat) (d : R) :
  let r := fold_left
             (fun (acc : nat * option R) (ip : nat * Coord) =>
                let '(closest, min_dist_to_waypoint) := acc in
                let '(i, route_point) := ip in
                let dist := haversine stop_coords route_point in
                if below dist min_dist_to_waypoint then (i, Some dist)
                else (closest, min_dist_to_waypoint))
             (combine (seq s (length pts)) pts) (c, Some d) in
  exists d',
    snd r = Some d'
    /\ d' <= d
    /\ (forall j q, nth_error pts j = Some q -> d' <= haversine stop_coords q)
    /\ ((fst r = c /\ d' = d)
        \/ exists j q,
             fst r = (s + j)%nat
             /\ nth_error pts j = Some q
             /\ d' = haversine stop_coords q
             /\ d' < d
             /\ forall j' q', (j' < j)%nat -> nth_error pts j' = Some q' ->
                              d' < haversine stop_coords q').
Proof.
  cbv zeta.
  set (step := fun (acc : nat * option R) (ip : nat * Coord) =>
                 let '(closest, min_dist_to_waypoint) := acc in
                 let '(i, route_point) := ip in
                 let dist := haversine stop_coords route_point in
                 if below dist min_dist_to_waypoint then (i, Some dist)
                 else (closest, min_dist_to_waypoint)).
  assert (Hstep : forall closest m i p,
             step (closest, Some m) (i, p)
             = if Rltb (haversine stop_coords p) m
               then (i, Some (haversine stop_coords p))
               else (closest, Some m)) by reflexivity.
  clearbody step.
  revert s c d. induction pts as [| p pts IH]; intros s c d;
    cbn [length seq combine fold_left].
  - exists d. repeat split; auto; try lra.
    intros j q Hj. destruct j; discriminate.
  - rewrite Hstep.
    destruct (Rltb (haversine stop_coords p) d) eqn:Hlt.
    + apply Rltb_spec in Hlt.
      destruct (IH (S s) s (haversine stop_coords p))
        as (d' & Hsnd & Hle & Hall & Hcase).
      exists d'. split; [exact Hsnd |]. split; [lra |]. split.
      * intros j q Hj. destruct j as [| j]; [| now apply (Hall j)].
        injection Hj as <-. exact Hle.
      * right. destruct Hcase as [[Hfst Hd] | (j & q & Hfst & Hq & Hd & Hlt' & Hpre)].
        -- exists 0%nat, p. repeat split; auto; try lra.
           ++ rewrite Hfst. lia.
           ++ intros j' q' Hj'. lia.
        -- exists (S j), q. repeat split; auto; try lra.
           ++ rewrite Hfst. lia.
           ++ intros j' q' Hj' Hq'. destruct j' as [| j'].
              ** injection Hq' as <-. lra.
              ** apply (Hpre j' q'); [lia | exact Hq'].
    + apply Rltb_nspec in Hlt.
      destruct (IH (S s) c d) as (d' & Hsnd & Hle & Hall & Hcase).
      exists d'. split; [exact Hsnd |]. split; [exact Hle |]. split.
      * intros j q Hj. destruct j as [| j]; [| now apply (Hall j)].
        injection Hj as <-. lra.
      * destruct Hcase as [[Hfst Hd] | (j & q & Hfst & Hq & Hd & Hlt' & Hpre)].
        -- left. auto.
        -- right. exists (S j), q. repeat split; auto.
           ++ rewrite Hfst. lia.
           ++ intros j' q' Hj' Hq'. destruct j' as [| j'].
              ** injection Hq' as <-. lra.
              ** apply (Hpre j' q'); [lia | exact Hq'].
Qed.

Lemma consecutive_differences_sum (w : list R) :
  fold_right Rplus 0
    (map (fun k => nth (k + 1) w 0 - nth k w 0) (seq 0 (length w - 1)))
  = last w 0 - hd 0 w.
Proof.
  induction w as [| a w IH]; [simpl; lra |].
  destruct w as [| b w']; [simpl; lra |].
  replace (length (a :: b :: w') - 1)%nat with (S (length (b :: w') - 1))
    by (simpl; lia).
  cbn [seq map fold_right]. rewrite <- seq_shift, map_map.
  rewrite (map_ext (fun k => nth (S k + 1) (a :: b :: w') 0 - nth (S k) (a :: b :: w') 0)
                   (fun k => nth (k + 1) (b :: w') 0 - nth k (b :: w') 0))
    by reflexivity.
  rewrite IH. simpl. lra.
Qed.

Lemma last_as_nth (w : list R) (d : R) :
  last w d = nth (length w - 1) w d.
Proof.
  induction w as [| a w IH]; [reflexivity |].
  destruct w as [| b w']; [reflexivity |].
  change (last (a :: b :: w') d) with (last (b :: w') d). rewrite IH.
  cbn [length]. rewrite !Nat.sub_succ, !Nat.sub_0_r. reflexivity.
Qed.

Lemma hd_as_nth (w : list R) (d : R) : hd d w = nth 0 w d.
Proof. destruct w; reflexivity. Qed.

Lemma segment_price_between (optimal_stops : list Stop) (lo hi : R) (k : nat) :
  lo <= 3 <= hi ->
  Forall (fun s => lo <= stop_fuel_price_per_gallon s <= hi) optimal_stops ->
  (k <= length optimal_stops)%nat ->
  lo <= segment_price optimal_stops k <= hi.
Proof.
  intros H3 Hall Hk. unfold segment_price.
  destruct (Nat.eqb k 0) eqn:H0; [lra |]. apply Nat.eqb_neq in H0. cbv zeta.
  assert (Hp : Forall (fun p => lo <= p <= hi)
                 (map stop_fuel_price_per_gallon optimal_stops)).
  { apply Forall_forall. intros p Hp. apply in_map_iff in Hp as (s & <- & Hs).
    rewrite Forall_forall in Hall. now apply Hall. }
  rewrite Forall_forall in Hp. apply Hp. apply nth_In. rewrite length_map. lia.
Qed.

Lemma segment_costs_between (w : list R) (optimal_stops : list Stop) (lo hi : R)
    (indices : list nat) :
  non_decreasing w ->
  lo <= 3 <= hi ->
  Forall (fun s => lo <= stop_fuel_price_per_gallon s <= hi) optimal_stops ->
  Forall (fun k => (k + 1 < length w)%nat /\ (k <= length optimal_stops)%nat) indices ->
  let span := fold_right Rplus 0
                (map (fun k => nth (k + 1) w 0 - nth k w 0) indices) in
  lo * (span / 10)
  <= fold_right Rplus 0 (map (segment_cost w optimal_stops) indices)
  <= hi * (span / 10).
Proof.
  intros Hw H3 Hall Hidx. cbv zeta.
  induction Hidx as [| k ks [Hk Hks] _ IH]; simpl; [lra |].
  pose proof (segment_price_between optimal_stops lo hi k H3 Hall Hks) as Hp.
  pose proof (CostFacts.non_decreasing_nth w k (k + 1) Hw ltac:(lia)) as Hseg.
  unfold segment_cost at 1 3. nra.
Qed.

Lemma cost_of_no_stops (route_coords : list Coord) (total : R) :
  _calculate_total_fuel_cost_on_route route_coords total []
  = Some (Rabs total / 10 * 3).
Proof.
  unfold _calculate_total_fuel_cost_on_route, waypoint_distances. simpl.
  destruct (Rle_dec 0 total) as [Hle | Hgt].
  - rewrite Rleb_true by exact Hle. simpl. rewrite Rabs_pos_eq by exact Hle.
    unfold FUEL_EFFICIENCY, DEFAULT_PRICE_PER_GALLON.
    f_equal. lra.
  - rewrite Rleb_false by lra. simpl. rewrite Rabs_left by lra.
    unfold FUEL_EFFICIENCY, DEFAULT_PRICE_PER_GALLON.
    f_equal. lra.
Qed.

End CostMore.

(** X13: the route point to which a stop is projected is the first of the
    route points nearest to it: no route point is nearer, and every route
    point before it is strictly farther.  On an empty route the index is
    0. *)
Theorem closest_route_point_is_first_nearest (route_coords : list Coord)
    (stop_coords : Coord) :
  let closest := RoutePlanner.closest_route_point_index route_coords stop_coords in
  (route_coords = [] /\ closest = 0%nat)
  \/ exists p,
       nth_error route_coords closest = Some p
       /\ forall k q, nth_error route_coords k = Some q ->
            haversine stop_coords p <= haversine stop_coords q
            /\ ((k < closest)%nat -> haversine stop_coords p < haversine stop_coords q).
Proof.
  cbv zeta. destruct route_coords as [| p0 rest]; [left; split; reflexivity |].
  right.
  destruct (CostMore.closest_fold_first_minimum stop_coords rest 1 0
              (haversine stop_coords p0))
    as (d' & Hsnd & Hle & Hall & Hcase).
  set (closest := RoutePlanner.closest_route_point_index (p0 :: rest) stop_coords).
  destruct Hcase as [[Hfst Hd] | (j & q & Hfst & Hq & Hd & Hlt & Hpre)].
  - assert (Hc : closest = 0%nat) by exact Hfst.
    rewrite Hc. exists p0. split; [reflexivity |].
    intros k q Hk. split; [| lia].
    destruct k as [| k]; [injection Hk as <-; lra |].
    rewrite <- Hd. now apply (Hall k).
  - assert (Hc : closest = S j) by exact Hfst.
    rewrite Hc. exists q. split; [exact Hq |].
    rewrite <- Hd. intros k q' Hk. split.
    + destruct k as [| k]; [injection Hk as <-; lra |]. now apply (Hall k).
    + intros Hlt'. destruct k as [| k]; [injection Hk as <-; lra |].
      apply (Hpre k q'); [lia | exact Hk].
Qed.

(** X14: with no stops the cost is the absolute value of the declared total,
    at 10 miles per gallon and 3.00 USD per gallon, whatever the route. *)
Theorem cost_without_stops (route_coords : list Coord) (total : R) :
  RoutePlanner._calculate_total_fuel_cost_on_route route_coords total []
  = Some (Rabs total / 10 * 3).
Proof. apply CostMore.cost_of_no_stops. Qed.

(** X15: when 3.00 USD and the price of every stop lie between [lo] and
    [hi], the cost lies between [lo] and [hi] times the gallons burnt over
    the span of the waypoints (from the least to the greatest waypoint
    distance, at 10 miles per gallon); that span is at least the absolute
    value of the declared total. *)
Theorem cost_between_price_bounds (route_coords : list Coord) (total : R)
    (optimal_stops : list Stop) (lo hi : R) :
  lo <= 3 <= hi ->
  Forall (fun s => lo <= stop_fuel_price_per_gallon s <= hi) optimal_stops ->
  exists waypoints cost,
    RoutePlanner.waypoint_distances route_coords total optimal_stops = Some waypoints
    /\ RoutePlanner._calculate_total_fuel_cost_on_route route_coords total optimal_stops
       = Some cost
    /\ lo * ((last waypoints 0 - hd 0 waypoints) / 10) <= cost
    /\ cost <= hi * ((last waypoints 0 - hd 0 waypoints) / 10)
    /\ Rabs total <= last waypoints 0 - hd 0 waypoints.
Proof.
  intros H3 Hall.
  destruct (CostFacts.waypoint_distances_total route_coords total optimal_stops)
    as (w & Hw & Hsorted & Hlen & Hperm).
  assert (Hidx : Forall (fun k => (k + 1 < length w)%nat
                                  /\ (k <= length optimal_stops)%nat)
                   (seq 0 (length w - 1))).
  { apply Forall_forall. intros k Hk. apply in_seq in Hk. lia. }
  exists w. eexists. split; [exact Hw |]. split.
  { unfold RoutePlanner._calculate_total_fuel_cost_on_route. rewrite Hw.
    apply CostFacts.cost_loop_sum. exact Hidx. }
  pose proof (CostMore.segment_costs_between w optimal_stops lo hi
                (seq 0 (length w - 1)) Hsorted H3 Hall Hidx) as Hb.
  cbv zeta in Hb. rewrite CostMore.consecutive_differences_sum in Hb.
  split; [lra |]. split; [lra |].
  assert (Hbound : forall x, In x w -> hd 0 w <= x <= last w 0).
  { intros x Hx. apply In_nth with (d := 0) in Hx as (k & Hk & <-).
    split.
    - rewrite CostMore.hd_as_nth.
      apply CostFacts.non_decreasing_nth; [exact Hsorted | lia].
    - rewrite CostMore.last_as_nth.
      apply CostFacts.non_decreasing_nth; [exact Hsorted | lia]. }
  assert (H0 : In 0 w).
  { apply (Permutation_in _ (Permutation_sym Hperm)). now left. }
  assert (Ht : In total w).
  { apply (Permutation_in _ (Permutation_sym Hperm)). right.
    apply in_or_app. right. now left. }
  apply Hbound in H0, Ht. apply Rabs_le. lra.
Qed.

Lemma cost_between_price_bounds_witness :
  exists waypoints cost,
    RoutePlanner.waypoint_distances Example.route 100
      [{| stop_location := (0, 1 / 20); stop_fuel_price_per_gallon := 4;
          distance_from_start_miles := 0 |}] = Some waypoints
    /\ RoutePlanner._calculate_total_fuel_cost_on_route Example.route 100
         [{| stop_location := (0, 1 / 20); stop_fuel_price_per_gallon := 4;
             distance_from_start_miles := 0 |}] = Some cost
    /\ 3 * ((last waypoints 0 - hd 0 waypoints) / 10) <= cost
    /\ cost <= 4 * ((last waypoints 0 - hd 0 waypoints) / 10)
    /\ Rabs 100 <= last waypoints 0 - hd 0 waypoints.
Proof.
  apply (cost_between_price_bounds Example.route 100
           [{| stop_location := (0, 1 / 20); stop_fuel_price_per_gallon := 4;
               distance_from_start_miles := 0 |}] 3 4).
  - lra.
  - constructor; [simpl; lra | constructor].
Defined.

(** ** The planner without stops *)



(** ** The request serializer and the view *)

Module SerializerFacts.
Import Serializers.

Lemma split_nonempty (sep : ascii) (value : string) : split sep value <> [].
Proof.
  induction value as [| c rest IH]; simpl; [discriminate |].
  destruct (Ascii.eqb c sep); [discriminate |].
  destruct (split sep rest); discriminate.
Qed.

Lemma split_length (sep : ascii) (value : string) :
  length (split sep value) = S (count_char sep value).
Proof.
  induction value as [| c rest IH]; simpl; [reflexivity |].
  destruct (Ascii.eqb c sep); simpl.
  - now rewrite IH.
  - destruct (split sep rest); simpl in *; [discriminate | exact IH].
Qed.

Lemma join_split (sep : ascii) (value : string) :
  join sep (split sep value) = value.
Proof.
  induction value as [| c rest IH]; [reflexivity |].
  pose proof (split_nonempty sep rest) as Hne.
  cbn [split].
  destruct (Ascii.eqb c sep) eqn:Hc.
  - apply Ascii.eqb_eq in Hc. subst c.
    destruct (split sep rest) as [| part parts]; [congruence |].
    change (join sep (EmptyString :: part :: parts))
      with (String sep (join sep (part :: parts))).
    now rewrite IH.
  - destruct (split sep rest) as [| part parts]; [congruence |].
    destruct parts as [| part' parts'].
    + simpl in *. now rewrite IH.
    + change (join sep (String c part :: part' :: parts'))
        with (String c (part ++ String sep (join sep (part' :: parts')))%string).
      change (join sep (part :: part' :: parts'))
        with (part ++ String sep (join sep (part' :: parts')))%string in IH.
      now rewrite IH.
Qed.

Lemma split_parts_free (sep : ascii) (value : string) :
  Forall (fun part => count_char sep part = 0%nat) (split sep value).
Proof.
  induction value as [| c rest IH]; simpl.
  - constructor; [reflexivity | constructor].
  - destruct (Ascii.eqb c sep) eqn:Hc.
    + constructor; [reflexivity | exact IH].
    + destruct (split sep rest) as [| part parts].
      * constructor; [simpl; now rewrite Hc | constructor].
      * inversion IH as [| ? ? Hp Hps]; subst.
        constructor; [simpl; now rewrite Hc | exact Hps].
Qed.

Lemma split_free (sep : ascii) (value : string) :
  count_char sep value = 0%nat -> split sep value = [value].
Proof.
  induction value as [| c rest IH]; simpl; [reflexivity |].
  destruct (Ascii.eqb c sep); [discriminate |].
  intros H. now rewrite IH.
Qed.

Lemma split_two (sep : ascii) (first second : string) :
  count_char sep first = 0%nat ->
  count_char sep second = 0%nat ->
  split sep (first ++ String sep second) = [first; second].
Proof.
  intros Hf Hs. induction first as [| c rest IH]; simpl.
  - rewrite Ascii.eqb_refl. now rewrite split_free.
  - simpl in Hf. destruct (Ascii.eqb c sep); [discriminate |].
    now rewrite IH.
Qed.

Lemma split_two_inv (sep : ascii) (value first second : string) :
  split sep value = [first; second] ->
  value = (first ++ String sep second)%string
  /\ count_char sep first = 0%nat
  /\ count_char sep second = 0%nat.
Proof.
  intros H.
  pose proof (join_split sep value) as Hj.
  pose proof (split_parts_free sep value) as Hf.
  rewrite H in Hj, Hf. simpl in Hj.
  inversion Hf as [| ? ? H1 Hf']; subst. inversion Hf' as [| ? ? H2 _]; subst.
  auto.
Qed.

Lemma within_spec (lo hi : R) (v : float_value) (x : R) :
  within lo hi v = Some x <-> v = Real x /\ lo <= x <= hi.
Proof.
  unfold within. destruct v as [y | negative |].
  - destruct (Rleb lo y) eqn:H1, (Rleb y hi) eqn:H2; simpl.
    + apply Rleb_spec in H1, H2. split.
      * intros [= <-]. split; [reflexivity | lra].
      * intros [[= ->] _]. reflexivity.
    + apply Rleb_nspec in H2. split; [discriminate |]. intros [[= ->] ?]. lra.
    + apply Rleb_nspec in H1. split; [discriminate |]. intros [[= ->] ?]. lra.
    + apply Rleb_nspec in H1. split; [discriminate |]. intros [[= ->] ?]. lra.
  - split; [discriminate | intros [? _]; discriminate].
  - split; [discriminate | intros [? _]; discriminate].
Qed.

Lemma validate_coordinate_accepted (float : string -> option float_value)
    (str_of_validation_error : string -> string)
    (lon_str lat_str field_name : string) (lon lat : R) :
  count_char "," lon_str = 0%nat ->
  count_char "," lat_str = 0%nat ->
  float lon_str = Some (Real lon) ->
  float lat_str = Some (Real lat) ->
  -180 <= lon <= 180 ->
  -90 <= lat <= 90 ->
  _validate_coordinate float str_of_validation_error
    (lon_str ++ "," ++ lat_str) field_name
  = inr (lat, lon).
Proof.
  intros Hc1 Hc2 Hf1 Hf2 Hlon Hlat. unfold _validate_coordinate.
  change (lon_str ++ "," ++ lat_str)%string
    with (lon_str ++ String "," lat_str)%string.
  rewrite split_two by assumption. rewrite Hf1, Hf2.
  rewrite (proj2 (within_spec (-180) 180 (Real lon) lon)) by auto.
  rewrite (proj2 (within_spec (-90) 90 (Real lat) lat)) by auto.
  reflexivity.
Qed.

End SerializerFacts.

(** X17: a value is accepted exactly when it is two comma-free parts joined
    by one comma, both read by [float] as numbers, the first between -180
    and 180 and the second between -90 and 90; what is returned is then the
    second number followed by the first, [[latitude, longitude]].  An
    infinity or a NaN is never accepted. *)
Theorem validate_coordinate_accepts_iff
    (float : string -> option Serializers.float_value)
    (str_of_validation_error : string -> string)
    (value field_name : string) (lat lon : R) :
  Serializers._validate_coordinate float str_of_validation_error value field_name
  = inr (lat, lon)
  <-> exists lon_str lat_str,
        value = (lon_str ++ "," ++ lat_str)%string
        /\ Serializers.count_char "," lon_str = 0%nat
        /\ Serializers.count_char "," lat_str = 0%nat
        /\ float lon_str = Some (Serializers.Real lon)
        /\ float lat_str = Some (Serializers.Real lat)
        /\ -180 <= lon <= 180
        /\ -90 <= lat <= 90.
Proof.
  split.
  - unfold Serializers._validate_coordinate.
    destruct (Serializers.split "," value) as [| lon_str [| lat_str [| ? ?]]] eqn:Hs;
      try discriminate.
    apply SerializerFacts.split_two_inv in Hs as (Hv & Hc1 & Hc2).
    destruct (float lon_str) as [longitude |] eqn:Hf1; [| discriminate].
    destruct (float lat_str) as [latitude |] eqn:Hf2; [| discriminate].
    destruct (Serializers.within (-180) 180 longitude) as [lon' |] eqn:Hw1;
      [| discriminate].
    destruct (Serializers.within (-90) 90 latitude) as [lat' |] eqn:Hw2;
      [| discriminate].
    intros [= <- <-].
    apply SerializerFacts.within_spec in Hw1 as [-> Hlon], Hw2 as [-> Hlat].
    exists lon_str, lat_str. repeat split; auto; lra.
  - intros (lon_str & lat_str & -> & Hc1 & Hc2 & Hf1 & Hf2 & Hlon & Hlat).
    now apply SerializerFacts.validate_coordinate_accepted.
Qed.

(** X18: a value that does not hold exactly one comma is refused with the
    message of the invalid format.  Whatever the value, a refusal carries
    that message or the message of a range check wrapped into
    "Error validating <field>: ..." by the last handler: the bare messages
    "Invalid longitude value for <field>." and "Invalid latitude value for
    <field>." are never what the caller receives. *)
Theorem validate_coordinate_refusals
    (float : string -> option Serializers.float_value)
    (str_of_validation_error : string -> string)
    (value field_name : string) :
  (Serializers.count_char "," value <> 1%nat ->
   Serializers._validate_coordinate float str_of_validation_error value field_name
   = inl (Serializers.invalid_format field_name))
  /\ forall message,
       Serializers._validate_coordinate float str_of_validation_error value field_name
       = inl message ->
       (message = Serializers.invalid_format field_name
        \/ message = Serializers.error_validating str_of_validation_error field_name
                       (Serializers.invalid_longitude field_name)
        \/ message = Serializers.error_validating str_of_validation_error field_name
                       (Serializers.invalid_latitude field_name))
       /\ message <> Serializers.invalid_longitude field_name
       /\ message <> Serializers.invalid_latitude field_name.
Proof.
  split.
  - intros Hcount. unfold Serializers._validate_coordinate.
    pose proof (SerializerFacts.split_length "," value) as Hlen.
    destruct (Serializers.split "," value) as [| lon_str [| lat_str [| ? ?]]];
      try reflexivity.
    simpl in Hlen. exfalso. apply Hcount. lia.
  - intros message Hm.
    assert (Hshape :
              message = Serializers.invalid_format field_name
              \/ message = Serializers.error_validating str_of_validation_error
                             field_name (Serializers.invalid_longitude field_name)
              \/ message = Serializers.error_validating str_of_validation_error
                             field_name (Serializers.invalid_latitude field_name)).
    { unfold Serializers._validate_coordinate in Hm.
      destruct (Serializers.split "," value) as [| lon_str [| lat_str [| ? ?]]];
        try (injection Hm as <-; now left).
      destruct (float lon_str); [| injection Hm as <-; now left].
      destruct (float lat_str); [| injection Hm as <-; now left].
      destruct (Serializers.within (-180) 180 f);
        [| injection Hm as <-; right; now left].
      destruct (Serializers.within (-90) 90 f0);
        [discriminate | injection Hm as <-; right; now right]. }
    split; [exact Hshape |].
    unfold Serializers.invalid_format, Serializers.error_validating,
      Serializers.invalid_longitude, Serializers.invalid_latitude in *.
    destruct Hshape as [-> | [-> | ->]]; split; simpl; discriminate.
Qed.

(** X19: a query whose start is "x,y" and whose end is "z,w", both valid,
    reaches the planner as the points (y, x) and (w, z): latitude first, the
    reverse of the order of the query.  The response is then 200 with the
    result of [plan] for these points. *)
Theorem view_plans_with_latitude_first
    (float : string -> option Serializers.float_value)
    (str_of_validation_error : string -> string)
    (catalog : list GasStation)
    (request : Coord -> Coord -> RoutePlanner.exn + RoutePlanner.Response)
    (start_lon start_lat end_lon end_lat : string) (x y z w : R) :
  Serializers.count_char "," start_lon = 0%nat ->
  Serializers.count_char "," start_lat = 0%nat ->
  Serializers.count_char "," end_lon = 0%nat ->
  Serializers.count_char "," end_lat = 0%nat ->
  float start_lon = Some (Serializers.Real x) ->
  float start_lat = Some (Serializers.Real y) ->
  float end_lon = Some (Serializers.Real z) ->
  float end_lat = Some (Serializers.Real w) ->
  -180 <= x <= 180 -> -90 <= y <= 90 ->
  -180 <= z <= 180 -> -90 <= w <= 90 ->
  Serializers.is_valid float str_of_validation_error
    (start_lon ++ "," ++ start_lat) (end_lon ++ "," ++ end_lat)
  = inr ((y, x), (w, z))
  /\ Views.get catalog request
       (Serializers.is_valid float str_of_validation_error
          (start_lon ++ "," ++ start_lat) (end_lon ++ "," ++ end_lat))
     = match RoutePlanner.plan catalog request (y, x) (w, z) with
       | Some result => (Views.HTTP_200_OK, Views.Result result)
       | None => (Views.HTTP_500_INTERNAL_SERVER_ERROR, Views.ServerError)
       end.
Proof.
  intros Hc1 Hc2 Hc3 Hc4 Hf1 Hf2 Hf3 Hf4 Hx Hy Hz Hw.
  assert (Hvalid : Serializers.is_valid float str_of_validation_error
                     (start_lon ++ "," ++ start_lat) (end_lon ++ "," ++ end_lat)
                   = inr ((y, x), (w, z))).
  { unfold Serializers.is_valid, Serializers.validate_start, Serializers.validate_end.
    rewrite (SerializerFacts.validate_coordinate_accepted float
               str_of_validation_error start_lon start_lat "start" x y)
      by assumption.
    rewrite (SerializerFacts.validate_coordinate_accepted float
               str_of_validation_error end_lon end_lat "end" z w)
      by assumption.
    reflexivity. }
  split; [exact Hvalid |]. rewrite Hvalid. reflexivity.
Qed.

Lemma view_plans_with_latitude_first_witness :
  Serializers.is_valid ExampleQuery.float ExampleQuery.str_of_validation_error
    ("0" ++ "," ++ "1") ("1" ++ "," ++ "0")
  = inr ((1, 0), (0, 1))
  /\ Views.get Example.catalog Example.request
       (Serializers.is_valid ExampleQuery.float ExampleQuery.str_of_validation_error
          ("0" ++ "," ++ "1") ("1" ++ "," ++ "0"))
     = match RoutePlanner.plan Example.catalog Example.request (1, 0) (0, 1) with
       | Some result => (Views.HTTP_200_OK, Views.Result result)
       | None => (Views.HTTP_500_INTERNAL_SERVER_ERROR, Views.ServerError)
       end.
Proof.
  apply (view_plans_with_latitude_first ExampleQuery.float
           ExampleQuery.str_of_validation_error Example.catalog Example.request
           "0" "1" "1" "0" 0 1 1 0);
    try reflexivity; lra.
Defined.

(** X20: the view answers 400 exactly when the serializer refused the query,
    and a refusal of the routing service is not an error status: a valid
    query whose route cannot be obtained is answered with 200 and the body
    [{'error': 'Could not plan route: ...'}]. *)
Theorem view_status_of_failures (catalog : list GasStation)
    (request : Coord -> Coord -> RoutePlanner.exn + RoutePlanner.Response)
    (serializer : list (string * string) + (Coord * Coord)) :
  (fst (Views.get catalog request serializer) = Views.HTTP_400_BAD_REQUEST
   <-> exists errors, serializer = inl errors)
  /\ forall start_coords end_coords e,
       serializer = inr (start_coords, end_coords) ->
       RoutePlanner._get_initial_route (request start_coords end_coords) = inl e ->
       Views.get catalog request serializer
       = (Views.HTTP_200_OK,
          Views.Result
            [("error"%string,
              RoutePlanner.VStr ("Could not plan route: " ++ e)%string)]).
Proof.
  split.
  - split.
    + destruct serializer as [errors | [start_coords end_coords]]; simpl.
      * intros _. now exists errors.
      * destruct (RoutePlanner.plan catalog request start_coords end_coords);
          discriminate.
    + intros [errors ->]. reflexivity.
  - intros start_coords end_coords e -> He. simpl.
    now rewrite (PlanFacts.plan_on_failure catalog request start_coords end_coords e He).
Qed.

(** ** The import command *)

Module ImportFacts.
Import ImportCommand.





Lemma full_address_some_iff (strip : string -> string) (row : Row) :
  has_address_cells row = true
  <-> exists full_address, _construct_full_address strip row = Some full_address.
Proof.
  unfold has_address_cells, _construct_full_address, get_stripped.
  destruct (Address row), (City row), (State row); cbv zeta;
    split; try discriminate; try (intros _; eexists; reflexivity);
    try (intros [? ?]; discriminate); intros; reflexivity.
Qed.

Lemma save_counts (strip : string -> string)
    (float : string -> option Serializers.float_value)
    (Store : Type) (update_or_create : Store -> string -> Defaults -> option Store)
    (self : Import Store) (row : Row)
    (lat lon : option Serializers.float_value) (ok : bool) :
  let saved := _save_gas_station_record strip float Store update_or_create
                 self row lat lon ok in
  geocoded_count Store saved = geocoded_count Store self
  /\ (processed_count Store saved + failed_count Store saved
      = S (processed_count Store self + failed_count Store self))%nat.
Proof.
  cbv zeta. unfold _save_gas_station_record.
  destruct (match record_of strip float row lat lon with
            | Some (id, defaults) => update_or_create (table Store self) id defaults
            | None => None
            end); simpl; split; try reflexivity; lia.
Qed.

Lemma process_row_counts (strip : string -> string)
    (float : string -> option Serializers.float_value)
    (Store : Type) (update_or_create : Store -> string -> Defaults -> option Store)
    (service : string -> nat -> answer) (self : Import Store) (row : Row) :
  match _process_row strip float Store update_or_create service self row with
  | Some next =>
      has_address_cells row = true
      /\ geocoded_count Store next = geocoded_count Store self
      /\ (processed_count Store next + failed_count Store next
          = S (processed_count Store self + failed_count Store self))%nat
  | None => has_address_cells row = false
  end.
Proof.
  unfold _process_row.
  destruct (_construct_full_address strip row) as [full_address |] eqn:Haddr.
  - destruct (if truthy full_address
              then _geocode_address_with_retries service full_address
              else (None, None, false)) as [[lat lon] ok].
    split.
    + apply (full_address_some_iff strip). now exists full_address.
    + apply save_counts.
  - destruct (has_address_cells row) eqn:Hcells; [| reflexivity].
    apply (full_address_some_iff strip) in Hcells as [? Hsome]. congruence.
Qed.

Lemma handle_loop_counts (strip : string -> string)
    (float : string -> option Serializers.float_value)
    (Store : Type) (update_or_create : Store -> string -> Defaults -> option Store)
    (service : string -> nat -> answer) (rows : list Row) (self : Import Store) :
  let final := handle_loop strip float Store update_or_create service self rows in
  geocoded_count Store final = geocoded_count Store self
  /\ (processed_count Store final + failed_count Store final
      = processed_count Store self + failed_count Store self + rows_handled rows)%nat.
Proof.
  cbv zeta. revert self. induction rows as [| row rest IH]; intros self; simpl.
  - split; [reflexivity | lia].
  - pose proof (process_row_counts strip float Store update_or_create service self row)
      as Hrow.
    destruct (_process_row strip float Store update_or_create service self row)
      as [next |].
    + destruct Hrow as (-> & Hg & Hc). destruct (IH next) as [IHg IHc].
      split; [congruence | lia].
    + rewrite Hrow. split; [reflexivity | lia].
Qed.

End ImportFacts.



(** X22: in the report of the import the number of geocoded addresses is
    always 0, whatever the geocoder answered; and the processed and the
    failed records together are the rows that come before the first row
    with [None] under Address, City or State (a row shorter than the
    header), at which the import stops; they are none when the file does
    not exist. *)
Theorem import_report_counts (strip : string -> string)
    (float : string -> option Serializers.float_value)
    (Store : Type)
    (update_or_create : Store -> string -> ImportCommand.Defaults -> option Store)
    (service : string -> nat -> ImportCommand.answer)
    (stations : Store) (csv_file : option (list ImportCommand.Row)) :
  let final := ImportCommand.handle strip float Store update_or_create service
                 stations csv_file in
  ImportCommand.geocoded_count Store final = 0%nat
  /\ (ImportCommand.processed_count Store final
      + ImportCommand.failed_count Store final
      = match csv_file with
        | Some rows => ImportCommand.rows_handled rows
        | None => 0
        end)%nat
  /\ (match csv_file with
      | Some rows => ImportCommand.rows_handled rows <= length rows
      | None => True
      end)%nat.
Proof.
  cbv zeta. unfold ImportCommand.handle. cbv zeta.
  destruct csv_file as [rows |]; [| simpl; auto].
  destruct (ImportFacts.handle_loop_counts strip float Store update_or_create service
              rows
              {| ImportCommand.processed_count := 0; ImportCommand.geocoded_count := 0;
                 ImportCommand.failed_count := 0; ImportCommand.table := stations |})
    as [Hg Hc].
  cbv zeta in Hg, Hc. simpl in Hg, Hc.
  split; [exact Hg |]. split; [exact Hc |].
  clear. induction rows as [| row rest IH]; simpl; [lia |].
  destruct (ImportCommand.has_address_cells row); lia.
Qed.

